(** * dronekit: the MAVLink link manager ([MPFakeState], src/dronekit/__init__.py)

    A shallow embedding of the link manager's state and of the code that
    acts on it: the listener table ([on_message], [remove_message_listener],
    [mavlink_packet]), the default listeners for [MOUNT_STATUS] and
    [EKF_STATUS_REPORT], the parameter watchdog and the inbound dispatch of
    [mavlink_thread], and [close].

    Conventions.
    - The module is Python 2 ([from Queue import Queue]); only
      [print_function] is imported from [__future__], so [/] between two
      [int]s is floor division ([Z.div]).
    - Unsigned wire fields ([seq], [count], [param_index], [param_count]: all
      [uint16_t]) are [nat]; Python integers do not wrap.  Signed fields and
      bit fields are [Z].  [param_value] is a Python [float].
    - [time.time()] readings are rationals, supplied by the environment.
    - A Python exception that leaves a function is the [Raised] outcome; the
      state it carries is the state at the moment of the raise.
    - Of a loop iteration of [mavlink_thread], the heartbeat emission and
      the link timeout (lines 414-425) are left out: they read and write
      none of the parameter, mission and listener state (of what is
      modelled they write the local [last_heartbeat_received] only, which
      no property below is about).  The writing of the outbound queue and
      the receive loop with their reconnection paths are modelled on their
      own ([Drain], [Receive]), as are [param_set] and the [HEARTBEAT] and
      [RC_CHANNELS_RAW] listeners.
    - [pymavlink] is not part of the repository.  What the code relies on
      of its [mavwp.MAVWPLoader] is stated where it is modelled: the
      loader has no [expected_count] before line 499 assigns one, and
      [wp(i)] is [None] for an [i] past the stored items. *)

From Stdlib Require Import ZArith QArith Lia PrimFloat.
From Stdlib.Strings Require Import Byte.
From stdpp Require Import gmap strings list fin_maps sorting pretty.

Open Scope string_scope.
Open Scope list_scope.
Open Scope nat_scope.

(** ** Outcomes of fallible code *)

Inductive exn : Type :=
  | IndexError
  | ValueError
  | AttributeError
  | Exception (what : string).

Inductive outcome (A : Type) : Type :=
  | Returned (a : A)
  | Raised (e : exn) (a : A).
Arguments Returned {A} a.
Arguments Raised {A} e a.

Definition state_of {A} (o : outcome A) : A :=
  match o with Returned a => a | Raised _ a => a end.

Definition returned {A} (o : outcome A) : bool :=
  match o with Returned _ => true | Raised _ _ => false end.

(** Sequencing: a raise skips the rest. *)
Definition and_then {A} (o : outcome A) (k : A -> outcome A) : outcome A :=
  match o with
  | Returned a => k a
  | Raised e a => Raised e a
  end.

(** ** Messages *)

(** A mission item as the codec delivers it ([MISSION_ITEM] / [WAYPOINT]). *)
Record waypoint : Type := mkWaypoint {
  wp_target_system : Z;
  wp_target_component : Z;
  wp_seq : nat;
  wp_frame : Z;
  wp_command : Z;
  wp_current : Z;
  wp_autocontinue : Z;
  wp_param1 : float;
  wp_param2 : float;
  wp_param3 : float;
  wp_param4 : float;
  wp_x : float;
  wp_y : float;
  wp_z : float
}.

(** Inbound messages the link manager interprets; every other message is
    [OTHER] and is only dispatched by name. *)
Inductive message : Type :=
  | HEARTBEAT (base_mode custom_mode system_status : Z)
  | PARAM_VALUE (param_id : string) (param_value : float)
                (param_index param_count : nat)
  | MISSION_COUNT (count : nat)
  | WAYPOINT_COUNT (count : nat)
  | MISSION_ITEM (w : waypoint)
  | WAYPOINT (w : waypoint)
  | MISSION_CURRENT (seq : nat)
  | WAYPOINT_CURRENT (seq : nat)
  | MISSION_REQUEST (seq : nat)
  | WAYPOINT_REQUEST (seq : nat)
  | MOUNT_STATUS (pointing_a pointing_b pointing_c : Z)
  | EKF_STATUS_REPORT (flags : Z)
  | OTHER (name : string).

Definition get_type (m : message) : string :=
  match m with
  | HEARTBEAT _ _ _ => "HEARTBEAT"
  | PARAM_VALUE _ _ _ _ => "PARAM_VALUE"
  | MISSION_COUNT _ => "MISSION_COUNT"
  | WAYPOINT_COUNT _ => "WAYPOINT_COUNT"
  | MISSION_ITEM _ => "MISSION_ITEM"
  | WAYPOINT _ => "WAYPOINT"
  | MISSION_CURRENT _ => "MISSION_CURRENT"
  | WAYPOINT_CURRENT _ => "WAYPOINT_CURRENT"
  | MISSION_REQUEST _ => "MISSION_REQUEST"
  | WAYPOINT_REQUEST _ => "WAYPOINT_REQUEST"
  | MOUNT_STATUS _ _ _ => "MOUNT_STATUS"
  | EKF_STATUS_REPORT _ => "EKF_STATUS_REPORT"
  | OTHER name => name
  end.

(** What the link manager hands to [master] for sending, by the name of the
    pymavlink call that sends it. *)
Inductive outbound : Type :=
  | param_request_read_send (target_system target_component : Z)
                            (param_id : string) (param_index : nat)
  | waypoint_request_send (seq : nat)
  | waypoint_request_list_send
  | waypoint_clear_all_send
  | waypoint_count_send (n : nat)
  | mav_send (w : waypoint).

(** ** The listener table *)

(** A Python callable is compared by identity ([fn not in list]); [fn] is
    that identity.  What the callable does when called as
    [fn(self, typ, m)] is given by a [behaviour], over a world [W] of
    everything listeners can read and write. *)
Definition fn : Type := nat.

Definition behaviour (W : Type) : Type :=
  fn -> W -> string -> message -> outcome W.

Module Listeners.

(** [list.remove(x)]: drops the first element equal to [x]. *)
Fixpoint list_remove (f : fn) (l : list fn) : list fn :=
  match l with
  | [] => []
  | g :: l' => if decide (g = f) then l' else g :: list_remove f l'
  end.

(** [self.message_listeners.get(name, [])] *)
Definition get (t : gmap string (list fn)) (name : string) : list fn :=
  default [] (t !! name).

(** [on_message(name, fn)], lines 322-330. *)
Definition on_message (name : string) (f : fn) (t : gmap string (list fn))
  : gmap string (list fn) :=
  let t1 := match t !! name with
            | None => <[name := []]> t
            | Some _ => t
            end in
  if decide (f ∈ get t1 name) then t1
  else <[name := get t1 name ++ [f]]> t1.

(** [remove_message_listener(name, fn)], lines 332-340; [list.remove] raises
    [ValueError] when [fn] is not in the list. *)
Definition remove_message_listener (name : string) (f : fn)
    (t : gmap string (list fn)) : outcome (gmap string (list fn)) :=
  match t !! name with
  | None => Returned t
  | Some l =>
      if decide (f ∈ l) then
        let l' := list_remove f l in
        Returned (if decide (length l' = 0%nat) then delete name t
                  else <[name := l']> t)
      else Raised ValueError t
  end.

(** The [for fn in ...: fn(self, typ, m)] loops of [mavlink_packet].  The
    first component of the state is the sequence of callables entered so
    far; it is bookkeeping, not program state. *)
Fixpoint call_all {W} (run : behaviour W) (l : list fn) (typ : string)
    (m : message) (s : list fn * W) : outcome (list fn * W) :=
  match l with
  | [] => Returned s
  | f :: l' =>
      match run f s.2 typ m with
      | Returned w' => call_all run l' typ m (s.1 ++ [f], w')
      | Raised e w' => Raised e (s.1 ++ [f], w')
      end
  end.

(** [mavlink_packet(m)], lines 342-352.  [hook] is
    [self.vehicle.mavrx_callback]. *)
Definition mavlink_packet {W} (run : behaviour W)
    (t : gmap string (list fn)) (hook : option (message -> W -> outcome W))
    (m : message) (s : list fn * W) : outcome (list fn * W) :=
  let typ := get_type m in
  and_then (call_all run (get t typ) typ m s) (fun s1 =>
  and_then (call_all run (get t "*") typ m s1) (fun s2 =>
  match hook with
  | Some h =>
      match h m s2.2 with
      | Returned w' => Returned (s2.1, w')
      | Raised e w' => Raised e (s2.1, w')
      end
  | None => Returned s2
  end)).

(** Tables that [on_message] and [remove_message_listener] build: no
    callable is listed twice under one name. *)
Definition table_ok (t : gmap string (list fn)) : Prop :=
  forall name l, t !! name = Some l -> NoDup l.

End Listeners.

(** ** Default listeners that populate the attribute cache *)

(** The flag constants of [pymavlink.dialects.v10.ardupilotmega] that the
    listeners read.  The module is generated by the codec; the listeners
    are stated over any such table. *)
Record dialect : Type := mkDialect {
  EKF_POS_HORIZ_ABS : Z;
  EKF_CONST_POS_MODE : Z;
  EKF_PRED_POS_HORIZ_ABS : Z
}.

(** The values the MAVLink [EKF_STATUS_FLAGS] enum assigns. *)
Definition ardupilotmega : dialect :=
  {| EKF_POS_HORIZ_ABS := 16;
     EKF_CONST_POS_MODE := 128;
     EKF_PRED_POS_HORIZ_ABS := 512 |}.

(** The attributes of [self] that the two listeners below touch, and the
    names passed to [_notify_attribute_listeners], oldest first. *)
Record attrs : Type := mkAttrs {
  armed : bool;
  mount_pitch : option Z;
  mount_yaw : option Z;
  mount_roll : option Z;
  ekf_ok : bool;
  notified : list string
}.

(** Lines 183-185 and 218-220, 238. *)
Definition attrs_init : attrs :=
  {| armed := false;
     mount_pitch := None;
     mount_yaw := None;
     mount_roll := None;
     ekf_ok := false;
     notified := [] |}.

(** The [MOUNT_STATUS] listener, lines 222-227.  The three fields are
    [int32_t], and [/] is Python 2 integer division. *)
Definition mount_status_listener (pointing_a pointing_b pointing_c : Z)
    (a : attrs) : attrs :=
  {| armed := armed a;
     mount_pitch := Some (pointing_a / 100)%Z;
     mount_roll := Some (pointing_b / 100)%Z;
     mount_yaw := Some (pointing_c / 100)%Z;
     ekf_ok := ekf_ok a;
     notified := notified a ++ ["mount"] |}.

(** The [EKF_STATUS_REPORT] listener, lines 240-257.  In Python [&] binds
    tighter than [>], so line 248 is [(m.flags & EKF_CONST_POS_MODE) > 0]
    like its two neighbours. *)
Definition ekf_status_report_listener (d : dialect) (flags : Z) (a : attrs)
  : attrs :=
  let status_poshorizabs := (0 <? Z.land flags (EKF_POS_HORIZ_ABS d))%Z in
  let status_constposmode := (0 <? Z.land flags (EKF_CONST_POS_MODE d))%Z in
  let status_predposhorizabs :=
    (0 <? Z.land flags (EKF_PRED_POS_HORIZ_ABS d))%Z in
  {| armed := armed a;
     mount_pitch := mount_pitch a;
     mount_roll := mount_roll a;
     mount_yaw := mount_yaw a;
     ekf_ok := if armed a
               then status_poshorizabs && negb status_constposmode
               else status_poshorizabs || status_predposhorizabs;
     notified := notified a ++ ["ekf_ok"] |}.

(** Truth value of a Python integer. *)
Definition truthy (x : Z) : bool := negb (x =? 0)%Z.

(** ** Link state owned by [mavlink_thread] *)

(** [params], the [PState] object of [prepare], lines 362-367.  A slot of
    [mav_param_set] is [None] until its [PARAM_VALUE] has arrived. *)
Record PState : Type := mkPState {
  mav_param_count : Z;
  mav_param_set : list (option message);
  loaded : bool;
  start : bool
}.

(** Modelled from the spec: [mavwp.MAVWPLoader] of the codec library is not
    in the repository.  The download side uses its [received] list
    ([wpoints]; [count()] is its length, [clear()] empties it, [add]
    appends) and [expected_count].  The library's constructor creates no
    [expected_count]: the attribute exists only once line 499, its one
    assignment, has run; until then it is [None] here, and reading it
    (line 511) raises [AttributeError]. *)
Record MAVWPLoader : Type := mkLoader {
  wpoints : list waypoint;
  expected_count : option nat
}.

Definition count (l : MAVWPLoader) : nat := length (wpoints l).

Definition clear (l : MAVWPLoader) : MAVWPLoader :=
  {| wpoints := []; expected_count := expected_count l |}.

Definition add (w : waypoint) (l : MAVWPLoader) : MAVWPLoader :=
  {| wpoints := wpoints l ++ [w]; expected_count := expected_count l |}.

(** Modelled from the spec: [MAVWPLoader.wp(i)] of the codec library is not
    in the repository; the spec's "look up the waypoint at [seq]" is taken
    as the library does it, the stored item or [None] when [i] is out of
    range. *)
Definition wp (i : nat) (l : MAVWPLoader) : option waypoint :=
  wpoints l !! i.

Record Link : Type := mkLink {
  params : PState;
  mav_param : gmap string float;
  wploader : MAVWPLoader;
  wp_loaded : bool;
  wp_uploaded : option (list bool);
  last_waypoint : nat;
  target_system : Z;
  target_component : Z;
  master_target_system : Z;
  master_target_component : Z;
  (* locals of mavlink_thread *)
  last_new_param : Q;
  duration : Q;
  last_heartbeat_received : Q;
  (* every message handed to master, oldest first *)
  sent : list outbound
}.

Definition start_duration : Q := 0.2.
Definition repeat_duration : Q := 1.

(** The state [prepare] leaves when it starts the thread at clock reading
    [t0] (lines 64-73, 194, 362-369, 383-389). *)
Definition initial (t0 : Q) (sys comp : Z) : Link :=
  {| params := {| mav_param_count := -1; mav_param_set := [];
                  loaded := false; start := false |};
     mav_param := ∅;
     wploader := {| wpoints := []; expected_count := None |};
     wp_loaded := true;
     wp_uploaded := None;
     last_waypoint := 0;
     target_system := 0;
     target_component := 0;
     master_target_system := sys;
     master_target_component := comp;
     last_new_param := t0;
     duration := start_duration;
     last_heartbeat_received := 0;
     sent := [] |}.

(** Field updates. *)
Definition set_params (p : PState) (s : Link) : Link :=
  mkLink p (mav_param s) (wploader s) (wp_loaded s) (wp_uploaded s)
    (last_waypoint s) (target_system s) (target_component s)
    (master_target_system s) (master_target_component s) (last_new_param s)
    (duration s) (last_heartbeat_received s) (sent s).

Definition set_mav_param (m : gmap string float) (s : Link) : Link :=
  mkLink (params s) m (wploader s) (wp_loaded s) (wp_uploaded s)
    (last_waypoint s) (target_system s) (target_component s)
    (master_target_system s) (master_target_component s) (last_new_param s)
    (duration s) (last_heartbeat_received s) (sent s).

Definition set_wploader (l : MAVWPLoader) (s : Link) : Link :=
  mkLink (params s) (mav_param s) l (wp_loaded s) (wp_uploaded s)
    (last_waypoint s) (target_system s) (target_component s)
    (master_target_system s) (master_target_component s) (last_new_param s)
    (duration s) (last_heartbeat_received s) (sent s).

Definition set_wp_loaded (b : bool) (s : Link) : Link :=
  mkLink (params s) (mav_param s) (wploader s) b (wp_uploaded s)
    (last_waypoint s) (target_system s) (target_component s)
    (master_target_system s) (master_target_component s) (last_new_param s)
    (duration s) (last_heartbeat_received s) (sent s).

Definition set_wp_uploaded (u : option (list bool)) (s : Link) : Link :=
  mkLink (params s) (mav_param s) (wploader s) (wp_loaded s) u
    (last_waypoint s) (target_system s) (target_component s)
    (master_target_system s) (master_target_component s) (last_new_param s)
    (duration s) (last_heartbeat_received s) (sent s).

Definition set_last_waypoint (n : nat) (s : Link) : Link :=
  mkLink (params s) (mav_param s) (wploader s) (wp_loaded s) (wp_uploaded s)
    n (target_system s) (target_component s)
    (master_target_system s) (master_target_component s) (last_new_param s)
    (duration s) (last_heartbeat_received s) (sent s).

Definition set_last_new_param (t : Q) (s : Link) : Link :=
  mkLink (params s) (mav_param s) (wploader s) (wp_loaded s) (wp_uploaded s)
    (last_waypoint s) (target_system s) (target_component s)
    (master_target_system s) (master_target_component s) t
    (duration s) (last_heartbeat_received s) (sent s).

Definition set_duration (d : Q) (s : Link) : Link :=
  mkLink (params s) (mav_param s) (wploader s) (wp_loaded s) (wp_uploaded s)
    (last_waypoint s) (target_system s) (target_component s)
    (master_target_system s) (master_target_component s) (last_new_param s)
    d (last_heartbeat_received s) (sent s).

Definition set_last_heartbeat_received (t : Q) (s : Link) : Link :=
  mkLink (params s) (mav_param s) (wploader s) (wp_loaded s) (wp_uploaded s)
    (last_waypoint s) (target_system s) (target_component s)
    (master_target_system s) (master_target_component s) (last_new_param s)
    (duration s) t (sent s).

Definition send (o : list outbound) (s : Link) : Link :=
  mkLink (params s) (mav_param s) (wploader s) (wp_loaded s) (wp_uploaded s)
    (last_waypoint s) (target_system s) (target_component s)
    (master_target_system s) (master_target_component s) (last_new_param s)
    (duration s) (last_heartbeat_received s) (sent s ++ o).

Definition set_loaded (b : bool) (p : PState) : PState :=
  mkPState (mav_param_count p) (mav_param_set p) b (start p).

Definition set_mav_param_set (l : list (option message)) (p : PState)
  : PState :=
  mkPState (mav_param_count p) l (loaded p) (start p).

(** ** The parameter watchdog, lines 395-410 *)

(** [v == None] *)
Definition unknown (v : option message) : bool :=
  match v with None => true | Some _ => false end.

(** [None in params.mav_param_set] *)
Definition has_unknown (l : list (option message)) : bool :=
  existsb unknown l.

(** The [for i, v in enumerate(params.mav_param_set)] loop, lines 402-408,
    from index [i] on with counter [c]: the requests it sends, in order. *)
Fixpoint rerequest (sys comp : Z) (i c : nat) (l : list (option message))
  : list outbound :=
  match l with
  | [] => []
  | v :: l' =>
      if unknown v then
        param_request_read_send sys comp "" i ::
          (if 50 <? c + 1 then [] else rerequest sys comp (S i) (c + 1) l')
      else rerequest sys comp (S i) c l'
  end.

(** [x > y] on clock readings. *)
Definition Qgtb (x y : Q) : bool := negb (Qle_bool x y).

(** Lines 397-410; [t] and [t'] are the readings of [time.time()] on lines
    401 and 410. *)
Definition watchdog (t t' : Q) (s : Link) : Link :=
  if start (params s) then
    let s1 := if negb (has_unknown (mav_param_set (params s)))
              then set_params (set_loaded true (params s)) s
              else s in
    if negb (loaded (params s1))
       && Qgtb (t - last_new_param s1) (duration s1)
    then
      let s2 := send (rerequest (master_target_system s1)
                        (master_target_component s1) 0 0
                        (mav_param_set (params s1))) s1 in
      set_last_new_param t' (set_duration repeat_duration s2)
    else s1
  else s.

(** ** Inbound dispatch, lines 471-528 *)

(** Parameter values, lines 472-493; [t] is the reading of [time.time()] on
    line 487.  An [IndexError] on line 486 is caught by the bare [except]
    of line 491, which skips lines 489 and 490. *)
Definition param_value_rx (t : Q) (msg : message) (s : Link) : Link :=
  match msg with
  | PARAM_VALUE param_id param_value param_index param_count =>
      let s1 :=
        if decide (mav_param_count (params s) ≠ Z.of_nat param_count) then
          set_params {| mav_param_count := Z.of_nat param_count;
                        mav_param_set := replicate param_count None;
                        loaded := false;
                        start := true |} s
        else s in
      if param_index <? param_count then
        match mav_param_set (params s1) !! param_index with
        | None => s1
        | Some slot =>
            let s2 := if unknown slot
                      then set_duration start_duration
                             (set_last_new_param t s1)
                      else s1 in
            let s3 := set_params
                        (set_mav_param_set
                           (<[param_index := Some msg]>
                              (mav_param_set (params s2)))
                           (params s2)) s2 in
            set_mav_param (<[param_id := param_value]> (mav_param s3)) s3
        end
      else set_mav_param (<[param_id := param_value]> (mav_param s1)) s1
  | _ => s
  end.

(** Waypoint receive, lines 496-514.  Line 511 reads [expected_count]
    after line 509 has appended the item; when no count message has set it
    the read raises, and nothing catches that before the handler of line
    532. *)
Definition waypoint_rx (msg : message) (s : Link) : outcome Link :=
  if wp_loaded s then Returned s
  else
    match msg with
    | WAYPOINT_COUNT n | MISSION_COUNT n =>
        Returned
          (send [waypoint_request_send 0]
             (set_wploader {| wpoints := wpoints (clear (wploader s));
                              expected_count := Some n |} s))
    | WAYPOINT w | MISSION_ITEM w =>
        if count (wploader s) <? wp_seq w then Returned s
        else if wp_seq w <? count (wploader s) then Returned s
        else
          let s1 := set_wploader (add w (wploader s)) s in
          match expected_count (wploader s1) with
          | None => Raised AttributeError s1
          | Some expected =>
              if wp_seq w + 1 <? expected
              then Returned (send [waypoint_request_send (wp_seq w + 1)] s1)
              else Returned (set_wp_loaded true s1)
          end
    | _ => Returned s
    end.

(** Lines 515-516. *)
Definition waypoint_current_rx (msg : message) (s : Link) : Link :=
  match msg with
  | WAYPOINT_CURRENT seq | MISSION_CURRENT seq => set_last_waypoint seq s
  | _ => s
  end.

Definition retarget (sys comp : Z) (w : waypoint) : waypoint :=
  mkWaypoint sys comp (wp_seq w) (wp_frame w) (wp_command w) (wp_current w)
    (wp_autocontinue w) (wp_param1 w) (wp_param2 w) (wp_param3 w)
    (wp_param4 w) (wp_x w) (wp_y w) (wp_z w).

(** Waypoint send to master, lines 519-524.  [wp] is the object stored in
    the loader, so the two assignments change the stored item.  For a
    [seq] past the stored items [wp] is [None], and the assignment of line
    521 raises [AttributeError]; for a [seq] past the flags of
    [wp_uploaded] the assignment of line 524 raises [IndexError].  Nothing
    catches either before the handler of line 532. *)
Definition waypoint_request_rx (msg : message) (s : Link) : outcome Link :=
  match wp_uploaded s, msg with
  | Some acked, (WAYPOINT_REQUEST seq | MISSION_REQUEST seq) =>
      match wp seq (wploader s) with
      | None => Raised AttributeError s
      | Some wp =>
          let wp' := retarget (target_system s) (target_component s) wp in
          let s1 := send [mav_send wp']
                      (set_wploader
                         {| wpoints := <[seq := wp']> (wpoints (wploader s));
                            expected_count := expected_count (wploader s) |}
                         s) in
          if seq <? length acked
          then Returned (set_wp_uploaded (Some (<[seq := true]> acked)) s1)
          else Raised IndexError s1
      end
  | _, _ => Returned s
  end.

(** Lines 527-528. *)
Definition heartbeat_rx (t : Q) (msg : message) (s : Link) : Link :=
  match msg with
  | HEARTBEAT _ _ _ => set_last_heartbeat_received t s
  | _ => s
  end.

(** Lines 471-528 for one received message. *)
Definition handle (t : Q) (msg : message) (s : Link) : outcome Link :=
  and_then (waypoint_rx msg (param_value_rx t msg s)) (fun s1 =>
  and_then (waypoint_request_rx msg (waypoint_current_rx msg s1)) (fun s2 =>
  Returned (heartbeat_rx t msg s2))).

(** ** Operations called from user threads *)

(** [fetch()], lines 259-264. *)
Definition fetch (s : Link) : Link :=
  send [waypoint_request_list_send] (set_wp_loaded false s).

(** [send_all_waypoints()], lines 266-276, up to the wait of line 274. *)
Definition send_all_waypoints_begin (s : Link) : Link :=
  let s1 := send [waypoint_clear_all_send] s in
  if 0 <? count (wploader s1) then
    send [waypoint_count_send (count (wploader s1))]
      (set_wp_uploaded (Some (replicate (count (wploader s1)) false)) s1)
  else s1.

(** One test of [while False in self.wp_uploaded] by a caller waiting on
    line 274, and line 276 when the test lets it through. *)
Definition send_all_waypoints_end (s : Link) : Link :=
  match wp_uploaded s with
  | Some acked =>
      if existsb negb acked then s else set_wp_uploaded None s
  | None => s
  end.

(** ** Runs *)

(** What happens to the link state, one event at a time: the watchdog at
    the head of a loop iteration of the thread, one message received by
    it, or an operation of a user thread.  Events are taken as atomic. *)
Inductive event : Type :=
  | Tick (t t' : Q)
  | Recv (t : Q) (m : message)
  | Fetch
  | Upload_begin
  | Upload_end.

Definition step (e : event) (s : Link) : outcome Link :=
  match e with
  | Tick t t' => Returned (watchdog t t' s)
  | Recv t m => handle t m s
  | Fetch => Returned (fetch s)
  | Upload_begin => Returned (send_all_waypoints_begin s)
  | Upload_end => Returned (send_all_waypoints_end s)
  end.

(** The thread stops at the first raise (lines 532-537). *)
Fixpoint run (es : list event) (s : Link) : outcome Link :=
  match es with
  | [] => Returned s
  | e :: es' =>
      match step e s with
      | Returned s' => run es' s'
      | Raised x s' => Raised x s'
      end
  end.

(** The events the thread got to before it stopped. *)
Fixpoint processed (es : list event) (s : Link) : list event :=
  match es with
  | [] => []
  | e :: es' =>
      e :: match step e s with
           | Returned s' => processed es' s'
           | Raised _ _ => []
           end
  end.

(** ** The thread with its listeners *)

Module Thread.

Record Worker (W : Type) : Type := mkWorker {
  link : Link;
  message_listeners : gmap string (list fn);
  mavrx_callback : option (message -> W -> outcome W);
  exiting : bool;
  world : list fn * W
}.
Arguments mkWorker {W}.
Arguments link {W}.
Arguments message_listeners {W}.
Arguments mavrx_callback {W}.
Arguments exiting {W}.
Arguments world {W}.

(** One pass of the receive loop body after [recv_msg], lines 471-530. *)
Definition recv_one {W} (run : behaviour W) (t : Q) (m : message)
    (k : Worker W) : outcome (Worker W) :=
  match handle t m (link k) with
  | Raised e l' =>
      Raised e (mkWorker l' (message_listeners k) (mavrx_callback k)
                  (exiting k) (world k))
  | Returned l' =>
      match Listeners.mavlink_packet run (message_listeners k)
              (mavrx_callback k) m (world k) with
      | Returned w' =>
          Returned (mkWorker l' (message_listeners k) (mavrx_callback k)
                      (exiting k) w')
      | Raised e w' =>
          Raised e (mkWorker l' (message_listeners k) (mavrx_callback k)
                      (exiting k) w')
      end
  end.

Definition wstep {W} (run : behaviour W) (e : event) (k : Worker W)
  : outcome (Worker W) :=
  match e with
  | Recv t m => recv_one run t m k
  | _ =>
      match step e (link k) with
      | Returned l' =>
          Returned (mkWorker l' (message_listeners k) (mavrx_callback k)
                      (exiting k) (world k))
      | Raised x l' =>
          Raised x (mkWorker l' (message_listeners k) (mavrx_callback k)
                      (exiting k) (world k))
      end
  end.

Fixpoint loop {W} (run : behaviour W) (es : list event) (k : Worker W)
  : outcome (Worker W) :=
  match es with
  | [] => Returned k
  | e :: es' => and_then (wstep run e k) (loop run es')
  end.

(** Where the thread is after the events [es]. *)
Inductive thread (W : Type) : Type :=
  | Looping (k : Worker W)
  | Ended (k : Worker W)
  | Died (e : exn) (k : Worker W).
Arguments Looping {W}.
Arguments Ended {W}.
Arguments Died {W}.

(** [mavlink_thread], lines 379-537: the loop inside the [try], and the
    handler that swallows the exception when [exiting] is set and re-raises
    it otherwise. *)
Definition mavlink_thread {W} (run : behaviour W) (es : list event)
    (k : Worker W) : thread W :=
  match loop run es k with
  | Returned k' => Looping k'
  | Raised e k' => if exiting k' then Ended k' else Died e k'
  end.

Definition worker_of {W} (th : thread W) : Worker W :=
  match th with Looping k | Ended k | Died _ k => k end.

Definition looping {W} (th : thread W) : bool :=
  match th with Looping _ => true | _ => false end.

End Thread.

(** ** [close], lines 576-581 *)

Module Close.

Definition packet : Type := list Byte.byte.

Record conn : Type := mkConn {
  exiting : bool;
  out_queue : list packet;
  master_open : bool
}.

Inductive action : Type :=
  | set_exiting
  | sleep
  | master_close.

(** The [while not self.out_queue.empty(): time.sleep(0.1)] loop.  The
    queue belongs to other threads as well (the worker takes packets out,
    senders put packets in): [others n q] is the queue they leave when the
    [n]-th sleep ends.  [fuel] bounds the number of sleeps the model
    follows; [None] is "still waiting". *)
Fixpoint wait_drain (others : nat -> list packet -> list packet)
    (fuel n : nat) (q : list packet) : option (nat * list packet) :=
  match q with
  | [] => Some (n, q)
  | _ :: _ =>
      match fuel with
      | 0 => None
      | S fuel' => wait_drain others fuel' (S n) (others n q)
      end
  end.

(** [close()]: the state it leaves and what it did, in order. *)
Definition close (others : nat -> list packet -> list packet) (fuel : nat)
    (c : conn) : option (conn * list action) :=
  match wait_drain others fuel 0 (out_queue c) with
  | Some (n, q) =>
      Some ({| exiting := true; out_queue := q; master_open := false |},
            set_exiting :: replicate n sleep ++ [master_close])
  | None => None
  end.

(** The queue that the [n]-th test of [out_queue.empty()] sees. *)
Fixpoint queue_at (others : nat -> list packet -> list packet)
    (n : nat) (q : list packet) : list packet :=
  match n with
  | 0 => q
  | S n' => others n' (queue_at others n' q)
  end.

End Close.

(** ** Predicates the properties are stated with *)

(** The received list holds item [i] at position [i]: by [seq] it is the
    prefix 0, 1, ..., n-1, strictly increasing and without gaps. *)
Definition received_ok (l : list waypoint) : Prop :=
  forall i w, l !! i = Some w -> wp_seq w = i.

(** [loaded] exactly when the set has started and no slot is unknown. *)
Definition loaded_iff (s : Link) : Prop :=
  loaded (params s) = true
  <-> start (params s) = true
      /\ has_unknown (mav_param_set (params s)) = false.

(** [loaded] only when the set has started and no slot is unknown. *)
Definition loaded_sound (s : Link) : Prop :=
  loaded (params s) = true ->
  start (params s) = true /\ has_unknown (mav_param_set (params s)) = false.

(** The slot list is as long as the announced count (it is empty while
    the count is still -1). *)
Definition params_shape (s : Link) : Prop :=
  length (mav_param_set (params s)) = Z.to_nat (mav_param_count (params s)).

(** The watchdog sends its re-requests at clock reading [t]: the tests of
    lines 397, 398 and 401 taken together. *)
Definition fires (t : Q) (s : Link) : bool :=
  start (params s)
  && has_unknown (mav_param_set (params s))
  && negb (loaded (params s))
  && Qgtb (t - last_new_param s) (duration s).

(** A [PARAM_VALUE] with this index and count lands in a slot that is
    unknown: its index is below the count, and either the count is new
    (every slot of the new set is unknown) or the slot of the current set
    is unknown. *)
Definition fills_unknown (param_index param_count : nat) (s : Link) : bool :=
  (param_index <? param_count)
  && (if decide (mav_param_count (params s) ≠ Z.of_nat param_count)
      then true
      else match mav_param_set (params s) !! param_index with
           | Some None => true
           | _ => false
           end).

(** The value of the last [PARAM_VALUE] for [key] among [es], or [acc] when
    there is none. *)
Fixpoint latest_param_value (key : string) (es : list event)
    (acc : option float) : option float :=
  match es with
  | [] => acc
  | Recv _ (PARAM_VALUE param_id param_value _ _) :: es' =>
      latest_param_value key es'
        (if decide (param_id = key) then Some param_value else acc)
  | _ :: es' => latest_param_value key es' acc
  end.

(** [close] returns within [bound] sleeps whatever the other threads do to
    the queue and whatever the queue holds. *)
Definition bounded_drain (bound : nat) : Prop :=
  forall others c, is_Some (Close.close others bound c).

(** What the parameter side of the state consists of. *)
Definition param_view (s : Link) : PState * gmap string float * Q * Q :=
  (params s, mav_param s, last_new_param s, duration s).

(** ** Concrete inputs used below *)

(** Listeners that return at once. *)
Definition quiet : behaviour unit := fun _ w _ _ => Returned w.

(** Listener 1 raises; the others return. *)
Definition faulty : behaviour unit :=
  fun f w _ _ =>
    if f =? 1 then Raised (Exception "listener failed") w else Returned w.

(** Listeners 1 and 2 on [HEARTBEAT], listener 3 on the wildcard. *)
Definition three_listeners : gmap string (list fn) :=
  Listeners.on_message "*" 3
    (Listeners.on_message "HEARTBEAT" 2
       (Listeners.on_message "HEARTBEAT" 1 ∅)).

Definition worker0 : Thread.Worker unit :=
  Thread.mkWorker (initial 0 1 1) three_listeners None false ([], tt).

(** A mission item with the given [seq]. *)
Definition item (seq : nat) : waypoint :=
  mkWaypoint 1 1 seq 3 16 0 1 0 0 0 0 (-35.5) 149.25 100.

(** A download in progress: [fetch()], then a count of 2 and item 0. *)
Definition downloading : Link :=
  state_of (run [Fetch; Recv 0 (MISSION_COUNT 2); Recv 0 (MISSION_ITEM (item 0))]
              (initial 0 1 1)).

(** A set of 100 announced, of which only slot 0 has arrived. *)
Definition sparse : Link :=
  state_of (run [Recv 0 (PARAM_VALUE "FS_THR_VALUE" 975 0 100)]
              (initial 0 1 1)).

(** A set of 2: slot 0 arrives, the watchdog fires one second later and
    asks for slot 1 again. *)
Definition rerequested : Link :=
  state_of (run [Recv 0 (PARAM_VALUE "RTL_ALT" 1500 0 2); Tick 1 1]
              (initial 0 1 1)).

(** Three values: two for one name, the later one with an index outside
    the set, and one for another name. *)
Definition three_values : list event :=
  [Recv 0 (PARAM_VALUE "RTL_ALT" 1500 0 2);
   Recv 0 (PARAM_VALUE "RTL_ALT" 2000 9 2);
   Recv 0 (PARAM_VALUE "WPNAV_SPEED" 500 1 2)].

(** One packet waiting to be written, and a worker that has stopped (it
    returns on a fatal socket error, line 442): nobody touches the queue. *)
Definition stuck : Close.conn :=
  {| Close.exiting := false;
     Close.out_queue := [[x00%byte]];
     Close.master_open := true |}.

Definition nobody : nat -> list Close.packet -> list Close.packet :=
  fun _ q => q.

(** A worker that writes one packet during each sleep. *)
Definition one_per_sleep : nat -> list Close.packet -> list Close.packet :=
  fun _ q => tail q.

(** ** Further definitions: listener tables *)

(** No name is left with an empty list ([remove_message_listener] deletes
    the name with its last listener, [on_message] appends right after
    creating the list). *)
Definition no_empty (t : gmap string (list fn)) : Prop :=
  forall name, t !! name <> Some [].

(** The tables the two operations build from the empty table; a
    [remove_message_listener] that raises builds nothing. *)
Inductive built : gmap string (list fn) -> Prop :=
  | built_empty : built ∅
  | built_on_message name f t :
      built t -> built (Listeners.on_message name f t)
  | built_remove name f t t' :
      built t ->
      Listeners.remove_message_listener name f t = Returned t' ->
      built t'.

(** [on_message(name, f)] for each [f] of [fs], in order. *)
Definition register_all (name : string) (fs : list fn)
    (t : gmap string (list fn)) : gmap string (list fn) :=
  foldl (fun t f => Listeners.on_message name f t) t fs.

(** Listeners that keep a record of their own: with the behaviour
    [observed code] a callable does what [code] has it do and appends its
    identity to the first component of the world.  The record is written
    by the callable when it is called, and by nothing else. *)
Definition observed {W} (code : behaviour W) : behaviour (list fn * W) :=
  fun f w typ m =>
    match code f w.2 typ m with
    | Returned w' => Returned (w.1 ++ [f], w')
    | Raised e w' => Raised e (w.1 ++ [f], w')
    end.

(** A raw hook, which is no listener and leaves that record alone. *)
Definition observed_hook {W} (h : message -> W -> outcome W)
  : message -> list fn * W -> outcome (list fn * W) :=
  fun m w =>
    match h m w.2 with
    | Returned w' => Returned (w.1, w')
    | Raised e w' => Raised e (w.1, w')
    end.

(** [mavlink_packet(m)] with such callables, no record written yet. *)
Definition dispatch_observed {W} (code : behaviour W)
    (t : gmap string (list fn)) (hook : option (message -> W -> outcome W))
    (m : message) (w : W) : outcome (list fn * (list fn * W)) :=
  Listeners.mavlink_packet (observed code) t (observed_hook <$> hook) m
    ([], ([], w)).

(** The record the callables have written when the dispatch is over:
    the calls made, in order. *)
Definition called {W} (o : outcome (list fn * (list fn * W))) : list fn :=
  (state_of o).2.1.

(** ** Further definitions: mission transfer *)

Definition is_count (m : message) : bool :=
  match m with MISSION_COUNT _ | WAYPOINT_COUNT _ => true | _ => false end.

Definition is_item (m : message) : bool :=
  match m with MISSION_ITEM _ | WAYPOINT _ => true | _ => false end.

Definition is_request (m : message) : bool :=
  match m with MISSION_REQUEST _ | WAYPOINT_REQUEST _ => true | _ => false end.

(** The messages of the mission protocol among those sent: all but the
    watchdog's [PARAM_REQUEST_READ]. *)
Definition mission_out (o : outbound) : bool :=
  match o with param_request_read_send _ _ _ _ => false | _ => true end.

(** What the thread meets beside a download: an iteration's watchdog, or a
    message that is neither a count nor an item. *)
Definition beside_download (e : event) : Prop :=
  match e with
  | Tick _ _ => True
  | Recv _ m => is_count m = false /\ is_item m = false
  | _ => False
  end.

(** What the thread meets beside an upload: an iteration's watchdog, or a
    message that is no request. *)
Definition beside_upload (e : event) : Prop :=
  match e with
  | Tick _ _ => True
  | Recv _ m => is_request m = false
  | _ => False
  end.

(** The event is the receipt of item [w], under either message name. *)
Definition is_item_of (e : event) (w : waypoint) : Prop :=
  exists t, e = Recv t (MISSION_ITEM w) \/ e = Recv t (WAYPOINT w).

(** The event is the receipt of a request for item [i], under either
    message name. *)
Definition is_request_of (e : event) (i : nat) : Prop :=
  exists t, e = Recv t (MISSION_REQUEST i) \/ e = Recv t (WAYPOINT_REQUEST i).

(** The thread's events while it downloads the items [ws], holding [n]
    items already: the items with [seq] n, n+1, ... in that order, and
    anywhere between them watchdog steps, other messages, and items with
    another [seq] than the one awaited (duplicates and items ahead). *)
Inductive downloads : nat -> list event -> list waypoint -> Prop :=
  | downloads_nil n : downloads n [] []
  | downloads_beside n e es ws :
      beside_download e -> downloads n es ws -> downloads n (e :: es) ws
  | downloads_stray n e w es ws :
      is_item_of e w -> wp_seq w <> n ->
      downloads n es ws -> downloads n (e :: es) ws
  | downloads_item n e w es ws :
      is_item_of e w -> wp_seq w = n ->
      downloads (S n) es ws -> downloads n (e :: es) (w :: ws).

(** The thread's events during an upload in which the items [reqs] are
    requested, in that order: the requests, and anywhere between them
    watchdog steps and other messages. *)
Inductive uploads : list event -> list nat -> Prop :=
  | uploads_nil : uploads [] []
  | uploads_beside e es reqs :
      beside_upload e -> uploads es reqs -> uploads (e :: es) reqs
  | uploads_request e i es reqs :
      is_request_of e i -> uploads es reqs -> uploads (e :: es) (i :: reqs).

(** An item with its target ids blanked: what the upload path never
    changes. *)
Definition untargeted (w : waypoint) : waypoint := retarget 0 0 w.

(** A local mission of two items, nothing in progress. *)
Definition two_items : Link :=
  set_wploader {| wpoints := [item 0; item 1]; expected_count := Some 2 |}
    (initial 0 1 1).

(** What the mission side of the state consists of, the messages sent
    being those of the mission protocol. *)
Definition mission_view (s : Link)
  : MAVWPLoader * bool * option (list bool) * Z * Z * list outbound :=
  (wploader s, wp_loaded s, wp_uploaded s, target_system s,
   target_component s, List.filter mission_out (sent s)).

(** ** Further definitions: parameter synchronisation *)

(** The event is the receipt of a [PARAM_VALUE] with this index and
    count. *)
Definition is_param_of (c : nat) (e : event) (i : nat) : Prop :=
  exists t id v, e = Recv t (PARAM_VALUE id v i c).

(** The [param_count] of the [PARAM_VALUE] the event delivers, if it
    delivers one. *)
Definition announced (e : event) : option nat :=
  match e with
  | Recv _ (PARAM_VALUE _ _ _ c) => Some c
  | _ => None
  end.

(** Slot [j] holds a value. *)
Definition known (j : nat) (s : Link) : Prop :=
  exists m, mav_param_set (params s) !! j = Some (Some m).

(** The indices of the unknown slots of [l], lowest first, the first
    slot of [l] having index [i]. *)
Fixpoint unknown_indices (i : nat) (l : list (option message)) : list nat :=
  match l with
  | [] => []
  | v :: l' =>
      if unknown v then i :: unknown_indices (S i) l'
      else unknown_indices (S i) l'
  end.

(** What every state of a run from [initial] satisfies on the parameter
    side: the slot list has one slot per announced parameter; the set has
    started once a count is known; a known slot holds a [PARAM_VALUE] of
    its own index and of the current count, and the name of that message
    has an entry in the keyed mapping. *)
Definition params_inv (s : Link) : Prop :=
  params_shape s
  /\ (mav_param_count (params s) = (-1)%Z
      \/ (0 <= mav_param_count (params s))%Z /\ start (params s) = true)
  /\ forall i m,
       mav_param_set (params s) !! i = Some (Some m) ->
       exists id v,
         m = PARAM_VALUE id v i (Z.to_nat (mav_param_count (params s)))
         /\ is_Some (mav_param s !! id).

(** ** Further definitions: writing the outbound queue, lines 427-447 *)

Module Drain.

(** What [self.master.write(msg)] does: it returns, or raises
    [socket.error] with [ECONNABORTED] (and then reopening the
    connection on line 438 succeeds or raises), or raises [socket.error]
    with another [errno], or raises something else. *)
Inductive write_result : Type :=
  | wrote
  | econnaborted (reopened : bool)
  | socket_error
  | other_error.

(** How the loop is left: the queue is empty (line 444), a send error
    was printed (line 447), the thread function returned (line 442), or
    reopening the connection raised out of the handler. *)
Inductive ending : Type :=
  | queue_empty
  | send_error
  | thread_returned
  | reopen_raised.

Record drained : Type := mkDrained {
  written : list Close.packet;   (* handed to the transport, in order *)
  lost : list Close.packet;      (* taken from the queue, write raised *)
  left : list Close.packet;      (* still in the queue *)
  reopens : nat;                 (* connections reopened *)
  how : ending
}.

(** The loop on a queue that no other thread touches meanwhile;
    [write n msg] is what the [n]-th write of the loop does. *)
Fixpoint drain (write : nat -> Close.packet -> write_result) (n : nat)
    (q : list Close.packet) : drained :=
  match q with
  | [] => mkDrained [] [] [] 0 queue_empty
  | msg :: q' =>
      match write n msg with
      | wrote =>
          let r := drain write (S n) q' in
          mkDrained (msg :: written r) (lost r) (left r) (reopens r) (how r)
      | econnaborted true =>
          let r := drain write (S n) q' in
          mkDrained (written r) (msg :: lost r) (left r) (S (reopens r))
            (how r)
      | econnaborted false => mkDrained [] [msg] q' 0 reopen_raised
      | socket_error => mkDrained [] [msg] q' 0 thread_returned
      | other_error => mkDrained [] [msg] q' 0 send_error
      end
  end.

End Drain.

(** ** Further definitions: the receive loop, lines 449-530 *)

Module Receive.

(** What [self.master.recv_msg()] does: it returns a message (read at
    clock [t]) or [None]; or it raises [socket.error] with [ECONNABORTED],
    and then line 459 makes a new connection from the address and binds
    [self.master] to it ([Some] of the target ids that the new object
    reports) or raises ([None]); or it raises [socket.error] with another
    [errno]; or it raises something else, which line 467 turns into "no
    message". *)
Inductive recv_result : Type :=
  | received (t : Q) (m : message)
  | nothing
  | econnaborted (reopened : option (Z * Z))
  | socket_error
  | other_error.

(** How the loop is left: no message for now (line 469), the thread
    function returned (line 463), or an exception left the loop, from
    the dispatch of a message or from reopening the connection. *)
Inductive ending : Type :=
  | no_message
  | thread_returned
  | raised (e : exn).

(** What the link state holds of [self.master]: the target ids that line
    405 reads. *)
Definition master_ids (s : Link) : Z * Z :=
  (master_target_system s, master_target_component s).

(** [self.master = mavutil.mavlink_connection(self.master.address)], line
    459: [self.master] is another object from here on, with the target
    ids it reports itself. *)
Definition rebind (ids : Z * Z) (s : Link) : Link :=
  mkLink (params s) (mav_param s) (wploader s) (wp_loaded s) (wp_uploaded s)
    (last_waypoint s) (target_system s) (target_component s)
    ids.1 ids.2 (last_new_param s)
    (duration s) (last_heartbeat_received s) (sent s).

(** The thread in its receive loop.  [mav_queued] tells whether
    [self.master.mav] is the codec that line 61 installed, which writes
    into [out_queue]: a connection made on line 459 comes with a codec of
    its own, and nothing installs the other one on it, so what is sent
    through [self.master] afterwards does not pass through the queue. *)
Record receiver (W : Type) : Type := mkReceiver {
  worker : Thread.Worker W;
  mav_queued : bool
}.
Arguments mkReceiver {W}.
Arguments worker {W}.
Arguments mav_queued {W}.

Definition rebind_worker {W} (ids : Z * Z) (k : Thread.Worker W)
  : Thread.Worker W :=
  Thread.mkWorker (rebind ids (Thread.link k)) (Thread.message_listeners k)
    (Thread.mavrx_callback k) (Thread.exiting k) (Thread.world k).

(** The loop over what the successive calls of [recv_msg] do; when the
    list is used up the next call is taken to return [None]. *)
Fixpoint recv_loop {W} (code : behaviour W) (rs : list recv_result)
    (r : receiver W) : ending * receiver W :=
  match rs with
  | [] => (no_message, r)
  | received t m :: rs' =>
      match Thread.recv_one code t m (worker r) with
      | Returned k' => recv_loop code rs' (mkReceiver k' (mav_queued r))
      | Raised e k' => (raised e, mkReceiver k' (mav_queued r))
      end
  | nothing :: _ => (no_message, r)
  | econnaborted (Some ids) :: rs' =>
      recv_loop code rs' (mkReceiver (rebind_worker ids (worker r)) false)
  | econnaborted None :: _ => (raised (Exception "socket.error"), r)
  | socket_error :: _ => (thread_returned, r)
  | other_error :: _ => (no_message, r)
  end.

(** The messages received before the first call that yields none, as
    events. *)
Fixpoint arrived (rs : list recv_result) : list event :=
  match rs with
  | received t m :: rs' => Recv t m :: arrived rs'
  | econnaborted (Some _) :: rs' => arrived rs'
  | _ => []
  end.

End Receive.

(** The outcome with its state changed by [f]. *)
Definition outcome_map {A} (f : A -> A) (o : outcome A) : outcome A :=
  match o with
  | Returned a => Returned (f a)
  | Raised e a => Raised e (f a)
  end.

(** ** Further definitions: [param_set], lines 290-313 *)

Module ParamSet.

(** [str.upper()] on a byte string, in the C locale. *)
Definition upper_ascii (a : Ascii.ascii) : Ascii.ascii :=
  let n := Ascii.nat_of_ascii a in
  if (97 <=? n) && (n <=? 122) then Ascii.ascii_of_nat (n - 32) else a.

Fixpoint upper (s : string) : string :=
  match s with
  | EmptyString => EmptyString
  | String a s' => String (upper_ascii a) (upper s')
  end.

(** What one evaluation of [time.time()] inside [param_set] finds: the
    clock reading and the keyed mapping as the thread has it by then. *)
Definition observation : Type := Q * gmap string float.

(** The [while time.time() - tstart < 1] loop, lines 306-309: [Some
    (true, _)] when it returns [True], [Some (false, rest)] when the
    second is over, [None] when the observations run out first. *)
Fixpoint poll (name : string) (value : float) (tstart : Q)
    (env : list observation) : option (bool * list observation) :=
  match env with
  | [] => None
  | (t, mav_param) :: env' =>
      if negb (Qle_bool 1 (t - tstart)) then
        match mav_param !! name with
        | Some v =>
            if PrimFloat.eqb v value then Some (true, env')
            else poll name value tstart env'
        | None => poll name value tstart env'
        end
      else Some (false, env')
  end.

(** The [while True] loop, lines 300-309, with [remaining] rounds to go
    and the [PARAM_SET]s sent so far. *)
Fixpoint rounds (name : string) (value : float) (remaining : nat)
    (env : list observation) (sent : list (string * float))
  : option (bool * list (string * float)) :=
  match env with
  | [] => None
  | (tstart, _) :: env1 =>
      match remaining with
      | 0 => Some (false, sent ++ [(upper name, value)])
      | S remaining' =>
          match poll name value tstart env1 with
          | None => None
          | Some (true, _) => Some (true, sent ++ [(upper name, value)])
          | Some (false, env2) =>
              rounds name value remaining' env2
                (sent ++ [(upper name, value)])
          end
      end
  end.

(** [param_set(name, value, retries)] with [retries >= 0]: the answer,
    the [PARAM_SET]s sent and whether the timeout line was printed;
    [None] when the observations run out before the call returns. *)
Definition param_set (name : string) (value : float) (retries : nat)
    (env : list observation)
  : option (bool * list (string * float) * bool) :=
  match rounds (upper name) value retries env [] with
  | Some (true, sent) => Some (true, sent, false)
  | Some (false, sent) => Some (false, sent, 0 <? retries)
  | None => None
  end.

End ParamSet.

(** ** Further definitions: the [HEARTBEAT] and [RC_CHANNELS_RAW]
    listeners *)

Module Heartbeat.

(** Lines 183-185 with the names notified. *)
Record mode_attrs : Type := mkMode {
  armed : bool;
  flightmode : string;
  system_status : option Z;
  notified : list string
}.

(** [{v: k for k, v in items}]: a later pair replaces an earlier one with
    the same number. *)
Definition inverted (items : list (string * Z)) : gmap Z string :=
  foldl (fun d kv => <[kv.2 := kv.1]> d) ∅ items.

(** The [HEARTBEAT] listener, lines 187-192.  [safety_armed] is
    [MAV_MODE_FLAG_SAFETY_ARMED]; [items] is
    [self.master.mode_mapping().items()] in the order the dictionary
    yields it.  A number that is no key of the inverted dictionary raises
    [KeyError] on line 190, after line 189 has run. *)
Definition heartbeat_listener (safety_armed : Z) (items : list (string * Z))
    (base_mode custom_mode status : Z) (a : mode_attrs)
  : outcome mode_attrs :=
  let a1 := mkMode (negb (Z.land base_mode safety_armed =? 0)%Z)
              (flightmode a) (system_status a) (notified a) in
  match inverted items !! custom_mode with
  | None => Raised (Exception "KeyError") a1
  | Some name =>
      Returned (mkMode (armed a1) name (Some status)
                  (notified a1 ++ ["mode"; "armed"]))
  end.

End Heartbeat.

Module RC.

Record rc_channels_raw : Type := mkRC {
  port : nat;
  chan1_raw : nat;
  chan2_raw : nat;
  chan3_raw : nat;
  chan4_raw : nat;
  chan5_raw : nat;
  chan6_raw : nat;
  chan7_raw : nat;
  chan8_raw : nat
}.

(** The local [set(chnum, v)], lines 204-207; [pretty] is [str] on a
    non-negative integer. *)
Definition set (m : rc_channels_raw) (chnum v : nat)
    (rc_readback : gmap string nat) : gmap string nat :=
  <[pretty (port m * 8 + chnum) := v]> rc_readback.

(** The [RC_CHANNELS_RAW] listener, lines 202-216. *)
Definition rc_channels_raw_listener (m : rc_channels_raw)
    (rc_readback : gmap string nat) : gmap string nat :=
  set m 8 (chan8_raw m)
    (set m 7 (chan7_raw m)
       (set m 6 (chan6_raw m)
          (set m 5 (chan5_raw m)
             (set m 4 (chan4_raw m)
                (set m 3 (chan3_raw m)
                   (set m 2 (chan2_raw m)
                      (set m 1 (chan1_raw m) rc_readback))))))).

(** Field [chan<k>_raw] of the message. *)
Definition chan_raw (m : rc_channels_raw) (k : nat) : nat :=
  match k with
  | 1 => chan1_raw m | 2 => chan2_raw m | 3 => chan3_raw m
  | 4 => chan4_raw m | 5 => chan5_raw m | 6 => chan6_raw m
  | 7 => chan7_raw m | _ => chan8_raw m
  end.

End RC.

(** The second write meets [ECONNABORTED] and the connection is
    reopened; the fourth raises something else; the others return. *)
Definition flaky : nat -> Close.packet -> Drain.write_result :=
  fun n _ =>
    match n with
    | 1 => Drain.econnaborted true
    | 3 => Drain.other_error
    | _ => Drain.wrote
    end.

Definition five_packets : list Close.packet :=
  [[x01%byte]; [x02%byte]; [x03%byte]; [x04%byte]; [x05%byte]].

(** The echo of the value is seen half a second after the first send. *)
Definition echoed : list ParamSet.observation :=
  [(0%Q, ∅); (0.5%Q, {[ "RTL_ALT" := 1500%float ]})].

(** A mode table in which two names share number 4. *)
Definition copter_modes : list (string * Z) :=
  [("STABILIZE", 0%Z); ("GUIDED", 4%Z); ("AUTO", 3%Z); ("GUIDED_OLD", 4%Z)].

(** Readings of the channels of ports 0 and 1. *)
Definition port0 : RC.rc_channels_raw :=
  RC.mkRC 0 1100 1101 1102 1103 1104 1105 1106 1107.

Definition port1 : RC.rc_channels_raw :=
  RC.mkRC 1 1500 1501 1502 1503 1504 1505 1506 1507.

(** * Properties *)

(** ** Listener table and user dispatch *)

Section ListenerFacts.
Import Listeners.

Lemma get_insert_eq (t : gmap string (list fn)) name l :
  get (<[name := l]> t) name = l.
Proof. unfold get. by rewrite lookup_insert_eq. Qed.

Lemma get_insert_ne (t : gmap string (list fn)) name name' l :
  name ≠ name' -> get (<[name := l]> t) name' = get t name'.
Proof. intros Hne. unfold get. by rewrite lookup_insert_ne. Qed.

(** After [on_message(name, f)] the callable is listed under [name]. *)
Lemma on_message_lookup name f (t : gmap string (list fn)) :
  exists l, on_message name f t !! name = Some l /\ f ∈ l.
Proof.
  unfold on_message.
  destruct (t !! name) as [l|] eqn:Hl.
  - destruct (decide (f ∈ get t name)) as [Hin|Hin].
    + exists l. split; [done|]. unfold get in Hin. by rewrite Hl in Hin.
    + exists (get t name ++ [f]). rewrite lookup_insert_eq.
      split; [done|]. set_solver.
  - rewrite get_insert_eq.
    destruct (decide (f ∈ [])) as [Hin|Hin]; [by apply elem_of_nil in Hin|].
    exists [f]. rewrite lookup_insert_eq. split; [done|]. set_solver.
Qed.

(** A registration of a callable already listed changes nothing. *)
Lemma on_message_present name f (t : gmap string (list fn)) l :
  t !! name = Some l -> f ∈ l -> on_message name f t = t.
Proof.
  intros Hl Hin. unfold on_message. rewrite Hl.
  unfold get. rewrite Hl. simpl. by rewrite decide_True.
Qed.

Lemma on_message_other name name' f (t : gmap string (list fn)) :
  name ≠ name' -> get (on_message name f t) name' = get t name'.
Proof.
  intros Hne. unfold on_message.
  assert (Ht1 : get (match t !! name with
                     | Some _ => t
                     | None => <[name := []]> t
                     end) name' = get t name').
  { destruct (t !! name); [done|]. by apply get_insert_ne. }
  destruct (decide _); [done|]. by rewrite get_insert_ne.
Qed.

Lemma table_ok_empty : table_ok ∅.
Proof. intros name l Hl. by rewrite lookup_empty in Hl. Qed.

Lemma table_ok_on_message name f t :
  table_ok t -> table_ok (on_message name f t).
Proof.
  intros Hok. unfold on_message.
  assert (Hok1 : table_ok (match t !! name with
                           | Some _ => t
                           | None => <[name := []]> t
                           end)).
  { destruct (t !! name) eqn:Hl; [done|].
    intros name' l' Hl'. destruct (decide (name = name')) as [->|Hne].
    - rewrite lookup_insert_eq in Hl'. injection Hl' as <-. constructor.
    - rewrite lookup_insert_ne in Hl' by done. by eapply Hok. }
  set (t1 := match t !! name with
             | Some _ => t
             | None => <[name := []]> t
             end) in *.
  destruct (decide (f ∈ get t1 name)) as [Hin|Hin]; [done|].
  intros name' l' Hl'. destruct (decide (name = name')) as [->|Hne].
  - rewrite lookup_insert_eq in Hl'. injection Hl' as <-.
    apply NoDup_app. split_and!.
    + unfold get. destruct (t1 !! name') eqn:Hl1; simpl.
      * by eapply Hok1.
      * constructor.
    + intros x Hx Hx'. apply list_elem_of_singleton in Hx'. by subst.
    + apply NoDup_singleton.
  - rewrite lookup_insert_ne in Hl' by done. by eapply Hok1.
Qed.

Lemma list_remove_subset f g (l : list fn) :
  g ∈ list_remove f l -> g ∈ l.
Proof.
  induction l as [|h l IH]; simpl; [done|].
  destruct (decide (h = f)); intros Hg.
  - by right.
  - apply elem_of_cons in Hg as [->|Hg]; [by left|right; auto].
Qed.

Lemma NoDup_list_remove f (l : list fn) : NoDup l -> NoDup (list_remove f l).
Proof.
  induction 1 as [|h l Hh Hl IH]; simpl; [constructor|].
  destruct (decide (h = f)); [done|].
  constructor; [|done]. intros Hin. by apply Hh, (list_remove_subset f).
Qed.

Lemma table_ok_remove name f t :
  table_ok t -> table_ok (state_of (remove_message_listener name f t)).
Proof.
  intros Hok. unfold remove_message_listener.
  destruct (t !! name) as [l|] eqn:Hl; [|done].
  destruct (decide (f ∈ l)); [|done]. simpl.
  destruct (decide _).
  - intros name' l' Hl'. destruct (decide (name = name')) as [->|Hne].
    + by rewrite lookup_delete_eq in Hl'.
    + rewrite lookup_delete_ne in Hl' by done. by eapply Hok.
  - intros name' l' Hl'. destruct (decide (name = name')) as [->|Hne].
    + rewrite lookup_insert_eq in Hl'. injection Hl' as <-.
      apply NoDup_list_remove. by eapply Hok.
    + rewrite lookup_insert_ne in Hl' by done. by eapply Hok.
Qed.

Context {W : Type} (run : behaviour W).

Lemma call_all_app l1 l2 typ m s :
  call_all run (l1 ++ l2) typ m s
  = and_then (call_all run l1 typ m s) (call_all run l2 typ m).
Proof.
  revert s. induction l1 as [|f l1 IH]; intros s; simpl; [done|].
  destruct (run f s.2 typ m); [apply IH|done].
Qed.

(** A loop that returns has entered exactly its callables, in order. *)
Lemma call_all_returned l typ m s s' :
  call_all run l typ m s = Returned s' -> s'.1 = s.1 ++ l.
Proof.
  revert s. induction l as [|f l IH]; intros s; simpl.
  - intros [= <-]. by rewrite app_nil_r.
  - destruct (run f s.2 typ m); [|done].
    intros Hs'. apply IH in Hs'. rewrite Hs'. simpl. by rewrite <- app_assoc.
Qed.

(** The two loops of [mavlink_packet] are one loop over the listeners of the
    type followed by those of the wildcard. *)
Lemma mavlink_packet_order t hook m s :
  mavlink_packet run t hook m s
  = and_then
      (call_all run (get t (get_type m) ++ get t "*") (get_type m) m s)
      (fun s2 =>
         match hook with
         | Some h =>
             match h m s2.2 with
             | Returned w' => Returned (s2.1, w')
             | Raised e w' => Raised e (s2.1, w')
             end
         | None => Returned s2
         end).
Proof.
  unfold mavlink_packet. rewrite call_all_app.
  by destruct (call_all run (get t (get_type m)) (get_type m) m s).
Qed.

Lemma mavlink_packet_returned t hook m s s' :
  mavlink_packet run t hook m s = Returned s' ->
  s'.1 = s.1 ++ get t (get_type m) ++ get t "*".
Proof.
  rewrite mavlink_packet_order.
  destruct (call_all run _ _ m s) as [s2|] eqn:Hc; simpl; [|done].
  apply call_all_returned in Hc.
  destruct hook as [h|].
  - destruct (h m s2.2); [|done]. by intros [= <-].
  - by intros [= <-].
Qed.

End ListenerFacts.

(** *** Registration is idempotent *)

(** What the callables record is the calls made to them. *)
Lemma call_all_called {W} (code : behaviour W) l typ m
    (s s' : list fn * (list fn * W)) :
  Listeners.call_all (observed code) l typ m s = Returned s' ->
  s'.2.1 = s.2.1 ++ l.
Proof.
  revert s. induction l as [|f l IH]; intros s; simpl.
  - intros [= <-]. by rewrite app_nil_r.
  - unfold observed at 1. destruct (code f s.2.2 typ m); [|done].
    intros Hs'. apply IH in Hs'. rewrite Hs'. simpl. by rewrite <- app_assoc.
Qed.

Lemma dispatch_observed_called {W} (code : behaviour W) t hook m w :
  returned (dispatch_observed code t hook m w) = true ->
  called (dispatch_observed code t hook m w)
  = Listeners.get t (get_type m) ++ Listeners.get t "*".
Proof.
  unfold dispatch_observed, called. rewrite mavlink_packet_order.
  destruct (Listeners.call_all _ _ _ m _) as [s2|] eqn:Hc; simpl; [|done].
  apply call_all_called in Hc. simpl in Hc.
  destruct hook as [h|]; simpl; [|done].
  unfold observed_hook. by destruct (h m s2.2.2).
Qed.




(** *** A listener that raises *)

(** C3, as the specification states it, at [three_listeners] with a first
    listener that raises: listener 2 (same type) and listener 3 (wildcard)
    are registered for the message and are never entered, and the thread
    dies on the first message; the second message is not dispatched to
    anyone. *)
Lemma listener_exception_counterexample :
  Listeners.get three_listeners "HEARTBEAT" = [1; 2]
  /\ Listeners.get three_listeners "*" = [3]
  /\ Listeners.mavlink_packet faulty three_listeners None (HEARTBEAT 0 0 0)
       ([], tt)
     = Raised (Exception "listener failed") ([1], tt)
  /\ Thread.looping
       (Thread.mavlink_thread faulty
          [Recv 0 (HEARTBEAT 0 0 0); Recv 1 (HEARTBEAT 0 0 0)] worker0)
     = false
  /\ Thread.world
       (Thread.worker_of
          (Thread.mavlink_thread faulty
             [Recv 0 (HEARTBEAT 0 0 0); Recv 1 (HEARTBEAT 0 0 0)] worker0))
     = ([1], tt).
Proof. split_and!; reflexivity. Qed.

(** C3 (amended).  [mavlink_packet] does not catch what a listener raises.
    When the listeners of the message's type followed by those of the
    wildcard are [pre ++ f :: post], the ones in [pre] return and [f]
    raises, [mavlink_packet] raises the same exception having entered
    [pre] and [f] only: none of [post] and not the raw hook.  The exception
    leaves the receive loop: the thread ends on this message, silently when
    [exiting] is set and with the exception otherwise, whatever messages
    follow. *)
Theorem listener_exception_propagates {W} (run : behaviour W)
    (t : gmap string (list fn)) (hook : option (message -> W -> outcome W))
    (m : message) (s s1 : list fn * W) (pre post : list fn) (f : fn)
    (e : exn) (w2 : W) :
  Listeners.get t (get_type m) ++ Listeners.get t "*" = pre ++ f :: post ->
  Listeners.call_all run pre (get_type m) m s = Returned s1 ->
  run f s1.2 (get_type m) m = Raised e w2 ->
  Listeners.mavlink_packet run t hook m s = Raised e (s.1 ++ pre ++ [f], w2)
  /\ forall (tm : Q) (es : list event) (k : Thread.Worker W) (l' : Link),
       Thread.message_listeners k = t ->
       Thread.mavrx_callback k = hook ->
       Thread.world k = s ->
       handle tm m (Thread.link k) = Returned l' ->
       Thread.mavlink_thread run (Recv tm m :: es) k
       = (if Thread.exiting k then Thread.Ended else Thread.Died e)
           (Thread.mkWorker l' t hook (Thread.exiting k)
              (s.1 ++ pre ++ [f], w2)).
Proof.
  intros Horder Hpre Hf.
  assert (Hmp : Listeners.mavlink_packet run t hook m s
                = Raised e (s.1 ++ pre ++ [f], w2)).
  { rewrite mavlink_packet_order, Horder, call_all_app, Hpre. simpl.
    rewrite Hf. simpl. apply call_all_returned in Hpre.
    by rewrite Hpre, <- app_assoc. }
  split; [exact Hmp|].
  intros tm es k l' <- <- <- Hh.
  unfold Thread.mavlink_thread. simpl. unfold Thread.recv_one.
  rewrite Hh, Hmp. simpl. by destruct (Thread.exiting k).
Qed.

Lemma listener_exception_propagates_witness :
  Listeners.mavlink_packet faulty three_listeners None (HEARTBEAT 0 0 0)
    ([], tt)
  = Raised (Exception "listener failed") ([1], tt)
  /\ Thread.looping
       (Thread.mavlink_thread faulty
          [Recv 0 (HEARTBEAT 0 0 0); Recv 1 (HEARTBEAT 0 0 0)] worker0)
     = false.
Proof.
  destruct (listener_exception_propagates faulty three_listeners None
              (HEARTBEAT 0 0 0) ([], tt) ([], tt) [] [2; 3] 1
              (Exception "listener failed") tt eq_refl eq_refl eq_refl)
    as [Hmp Hth].
  split; [exact Hmp|].
  by rewrite (Hth 0%Q [Recv 1 (HEARTBEAT 0 0 0)] worker0
                (state_of (handle 0 (HEARTBEAT 0 0 0) (initial 0 1 1)))
                eq_refl eq_refl eq_refl eq_refl).
Defined.

(** *** The thread and the link state *)

(** Listeners act on their world only: the link state the thread reaches
    with its listeners is the one [run] reaches on the events it got to,
    so what holds after every [run] holds in the thread. *)
Lemma loop_link {W} (code : behaviour W) (es : list event)
    (k : Thread.Worker W) :
  exists es',
    es' `prefix_of` es
    /\ Thread.link (state_of (Thread.loop code es k))
       = state_of (run es' (Thread.link k)).
Proof.
  revert k. induction es as [|e es IH]; intros k.
  - by exists [].
  - assert (Hstop : forall l',
               state_of (step e (Thread.link k)) = l' ->
               exists es', es' `prefix_of` e :: es
                 /\ l' = state_of (run es' (Thread.link k))).
    { intros l' <-. exists [e]. split.
      - apply prefix_cons, prefix_nil.
      - simpl. by destruct (step e (Thread.link k)). }
    assert (Hgo : forall k',
               step e (Thread.link k) = Returned (Thread.link k') ->
               exists es', es' `prefix_of` e :: es
                 /\ Thread.link (state_of (Thread.loop code es k'))
                    = state_of (run es' (Thread.link k))).
    { intros k' Hk'. destruct (IH k') as (es' & Hpre & Hes').
      exists (e :: es'). split; [by apply prefix_cons|].
      simpl. by rewrite Hk'. }
    cbn [Thread.loop].
    destruct e as [t t'|t m| | |]; simpl Thread.wstep;
      try (apply Hgo; reflexivity).
    unfold Thread.recv_one.
    destruct (handle t m (Thread.link k)) as [l'|x l'] eqn:Hh.
    + destruct (Listeners.mavlink_packet code _ _ m _) as [w'|x w'].
      * simpl. apply Hgo. exact Hh.
      * simpl. apply Hstop. simpl. by rewrite Hh.
    + simpl. apply Hstop. simpl. by rewrite Hh.
Qed.

(** ** Mission download *)

Lemma received_ok_nil : received_ok [].
Proof. intros i w Hi. by rewrite lookup_nil in Hi. Qed.

Lemma received_ok_snoc l w :
  received_ok l -> wp_seq w = length l -> received_ok (l ++ [w]).
Proof.
  intros Hl Hw i w' Hi.
  destruct (decide (i < length l)) as [Hlt|Hge].
  - rewrite lookup_app_l in Hi by done. by apply Hl.
  - rewrite lookup_app_r in Hi by lia.
    destruct (i - length l) as [|j] eqn:Hj; simpl in Hi; [|done].
    injection Hi as <-. lia.
Qed.

Lemma received_ok_retarget l i w sys comp :
  received_ok l -> l !! i = Some w ->
  received_ok (<[i := retarget sys comp w]> l).
Proof.
  intros Hl Hi j w' Hj.
  destruct (decide (i = j)) as [->|Hne].
  - rewrite list_lookup_insert_eq in Hj by (by eapply lookup_lt_Some).
    injection Hj as <-. simpl. by apply Hl.
  - rewrite list_lookup_insert_ne in Hj by done. by apply Hl.
Qed.

Lemma wploader_param_value_rx t m s :
  wploader (param_value_rx t m s) = wploader s.
Proof.
  destruct m; simpl; try done.
  destruct (decide _); destruct (_ <? _); simpl; try done;
    destruct (_ !! _) as [[?|]|]; done.
Qed.

Lemma wploader_watchdog t t' s : wploader (watchdog t t' s) = wploader s.
Proof.
  unfold watchdog. destruct (start (params s)); [|done].
  destruct (negb (has_unknown (mav_param_set (params s)))); simpl;
    try match goal with |- context [if ?b then _ else _] => destruct b end;
    done.
Qed.

Lemma received_ok_waypoint_rx m s :
  received_ok (wpoints (wploader s)) ->
  received_ok (wpoints (wploader (state_of (waypoint_rx m s)))).
Proof.
  intros Hok. unfold waypoint_rx. destruct (wp_loaded s); [done|].
  destruct m; simpl; try done; try apply received_ok_nil.
  all: unfold count;
    destruct (length (wpoints (wploader s)) <? wp_seq w) eqn:H1; [done|];
    destruct (wp_seq w <? length (wpoints (wploader s))) eqn:H2; [done|];
    apply Nat.ltb_ge in H1, H2;
    destruct (expected_count (wploader s)) as [expected|]; simpl;
    [destruct (_ <? _)|]; simpl; apply received_ok_snoc; done || lia.
Qed.

Lemma received_ok_waypoint_request_rx m s :
  received_ok (wpoints (wploader s)) ->
  received_ok (wpoints (wploader (state_of (waypoint_request_rx m s)))).
Proof.
  intros Hok. unfold waypoint_request_rx, wp.
  destruct (wp_uploaded s) as [acked|]; [|by destruct m].
  destruct m; simpl; try done.
  all: destruct (wpoints (wploader s) !! seq) as [w|] eqn:Hw; [|done];
    destruct (seq <? length acked); simpl; by apply received_ok_retarget.
Qed.

Lemma received_ok_step e s :
  received_ok (wpoints (wploader s)) ->
  received_ok (wpoints (wploader (state_of (step e s)))).
Proof.
  intros Hok. destruct e as [t t'|t m| | |]; simpl.
  - by rewrite wploader_watchdog.
  - unfold handle.
    pose proof (received_ok_waypoint_rx m (param_value_rx t m s)) as H2.
    rewrite wploader_param_value_rx in H2. specialize (H2 Hok).
    destruct (waypoint_rx m _) as [s2|x s2]; simpl in *; [|done].
    assert (H3 : received_ok
                   (wpoints (wploader (waypoint_current_rx m s2))))
      by (by destruct m).
    apply (received_ok_waypoint_request_rx m) in H3.
    destruct (waypoint_request_rx m _) as [s4|x s4]; simpl in *; [|done].
    by destruct m.
  - done.
  - unfold send_all_waypoints_begin. simpl. by destruct (0 <? _).
  - unfold send_all_waypoints_end. destruct (wp_uploaded s); [|done].
    by destruct (existsb negb _).
Qed.

Lemma state_of_run_cons e es s :
  state_of (run (e :: es) s)
  = match step e s with
    | Returned s' => state_of (run es s')
    | Raised _ s' => s'
    end.
Proof. simpl. by destruct (step e s). Qed.

(** A property kept by every step holds after every run. *)
Lemma run_invariant (P : Link -> Prop) :
  (forall e s, P s -> P (state_of (step e s))) ->
  forall es s, P s -> P (state_of (run es s)).
Proof.
  intros Hstep es. induction es as [|e es IH]; intros s Hs; [done|].
  rewrite state_of_run_cons. specialize (Hstep e s Hs).
  destruct (step e s) as [s'|x s']; simpl in Hstep; [by apply IH|done].
Qed.

(** For an item or a count message the dispatch is [waypoint_rx]. *)
Lemma step_item t w m s :
  m = MISSION_ITEM w \/ m = WAYPOINT w ->
  step (Recv t m) s = waypoint_rx m s.
Proof.
  intros [-> | ->]; simpl; unfold handle; simpl;
    (destruct (waypoint_rx _ s) as [s1|x s1]; simpl; [|done]);
    unfold waypoint_request_rx; by destruct (wp_uploaded s1).
Qed.

Lemma step_count t n m s :
  m = MISSION_COUNT n \/ m = WAYPOINT_COUNT n ->
  step (Recv t m) s = waypoint_rx m s.
Proof.
  intros [-> | ->]; simpl; unfold handle; simpl;
    (destruct (waypoint_rx _ s) as [s1|x s1]; simpl; [|done]);
    unfold waypoint_request_rx; by destruct (wp_uploaded s1).
Qed.

(** Lines 502-514 for an item, the download being open. *)
Lemma waypoint_rx_item w m s :
  m = MISSION_ITEM w \/ m = WAYPOINT w ->
  wp_loaded s = false ->
  waypoint_rx m s
  = if count (wploader s) <? wp_seq w then Returned s
    else if wp_seq w <? count (wploader s) then Returned s
    else match expected_count (wploader s) with
         | None => Raised AttributeError (set_wploader (add w (wploader s)) s)
         | Some expected =>
             if wp_seq w + 1 <? expected
             then Returned (send [waypoint_request_send (wp_seq w + 1)]
                              (set_wploader (add w (wploader s)) s))
             else Returned (set_wp_loaded true
                              (set_wploader (add w (wploader s)) s))
         end.
Proof. intros Hm Hnl. unfold waypoint_rx. rewrite Hnl. by destruct Hm as [-> | ->]. Qed.

(** C1.  While the download side is not loaded, a [MISSION_ITEM] or
    [WAYPOINT] whose [seq] is above or below the number [n] of items
    received leaves the state as it is.  One whose [seq] is [n] is
    appended; what follows depends on [expected_count], which only a count
    message assigns (line 499).  Once it is assigned,
    [WAYPOINT_REQUEST(seq + 1)] is sent when [seq + 1 < expected_count] and
    [wp_loaded] is set otherwise, as specified.  While it is not (no count
    message since the link manager was created), line 511 raises
    [AttributeError] after the append: no request is sent, [wp_loaded]
    stays false, and the thread ends on that message; [fetch()] on a new
    link manager followed by an item with [seq] 0 is such a state.  The
    received list holds [seq] 0, 1, ..., n-1 in order all the same, in the
    initial state and after every run. *)
Theorem mission_item_download :
  (forall (t : Q) (w : waypoint) (m : message) (s : Link) (expected : nat),
      m = MISSION_ITEM w \/ m = WAYPOINT w ->
      wp_loaded s = false ->
      expected_count (wploader s) = Some expected ->
      exists s', step (Recv t m) s = Returned s'
        /\ (count (wploader s) < wp_seq w -> s' = s)
        /\ (wp_seq w < count (wploader s) -> s' = s)
        /\ (wp_seq w = count (wploader s) ->
            wpoints (wploader s') = wpoints (wploader s) ++ [w]
            /\ (wp_seq w + 1 < expected ->
                sent s' = sent s ++ [waypoint_request_send (wp_seq w + 1)]
                /\ wp_loaded s' = false)
            /\ (~ wp_seq w + 1 < expected ->
                sent s' = sent s /\ wp_loaded s' = true)))
  /\ (forall (t : Q) (w : waypoint) (m : message) (s : Link),
      m = MISSION_ITEM w \/ m = WAYPOINT w ->
      wp_loaded s = false ->
      expected_count (wploader s) = None ->
      (wp_seq w <> count (wploader s) -> step (Recv t m) s = Returned s)
      /\ (wp_seq w = count (wploader s) ->
          step (Recv t m) s
          = Raised AttributeError (set_wploader (add w (wploader s)) s)
          /\ forall {W} (code : behaviour W) (es : list event)
                (k : Thread.Worker W),
               Thread.link k = s ->
               Thread.mavlink_thread code (Recv t m :: es) k
               = (if Thread.exiting k then Thread.Ended
                  else Thread.Died AttributeError)
                   (Thread.mkWorker (set_wploader (add w (wploader s)) s)
                      (Thread.message_listeners k) (Thread.mavrx_callback k)
                      (Thread.exiting k) (Thread.world k))))
  /\ (forall t0 sys comp,
      expected_count (wploader (fetch (initial t0 sys comp))) = None
      /\ wp_loaded (fetch (initial t0 sys comp)) = false
      /\ count (wploader (fetch (initial t0 sys comp))) = 0)
  /\ (forall t0 sys comp, received_ok (wpoints (wploader (initial t0 sys comp))))
  /\ (forall (es : list event) (s : Link),
      received_ok (wpoints (wploader s)) ->
      received_ok (wpoints (wploader (state_of (run es s))))).
Proof.
  split_and!.
  - intros t w m s expected Hm Hnl Hexp.
    rewrite (step_item t w m s Hm), (waypoint_rx_item w m s Hm Hnl), Hexp.
    destruct (count (wploader s) <? wp_seq w) eqn:H1;
      [|destruct (wp_seq w <? count (wploader s)) eqn:H2;
        [|destruct (wp_seq w + 1 <? expected) eqn:H3]];
      (eexists; split; [reflexivity|]);
      rewrite ?Nat.ltb_lt, ?Nat.ltb_ge in *; simpl.
    + split_and!; [done|done|lia].
    + split_and!; [done|done|lia].
    + split_and!; [lia|lia|]. intros _. split_and!; [done| |lia].
      intros _. by rewrite Hnl.
    + split_and!; [lia|lia|]. intros _. split_and!; [done|lia|done].
  - intros t w m s Hm Hnl Hexp.
    rewrite (step_item t w m s Hm), (waypoint_rx_item w m s Hm Hnl), Hexp.
    split.
    + intros Hne.
      destruct (count (wploader s) <? wp_seq w) eqn:H1; [done|].
      destruct (wp_seq w <? count (wploader s)) eqn:H2; [done|].
      apply Nat.ltb_ge in H1, H2. lia.
    + intros Heq. rewrite Heq, Nat.ltb_irrefl.
      split; [done|]. intros W code es k Hk.
      unfold Thread.mavlink_thread. cbn [Thread.loop Thread.wstep].
      unfold Thread.recv_one.
      change (handle t m (Thread.link k)) with (step (Recv t m) (Thread.link k)).
      rewrite Hk, (step_item t w m s Hm), (waypoint_rx_item w m s Hm Hnl), Hexp.
      rewrite Heq, Nat.ltb_irrefl. simpl. by destruct (Thread.exiting k).
  - done.
  - intros t0 sys comp. apply received_ok_nil.
  - intros es s. apply (run_invariant (fun s => received_ok (wpoints (wploader s)))).
    apply received_ok_step.
Qed.

Lemma mission_item_download_witness :
  (* item 0 right after fetch(), no count received yet *)
  step (Recv 0 (MISSION_ITEM (item 0))) (fetch (initial 0 1 1))
  = Raised AttributeError
      (set_wploader (add (item 0) (wploader (fetch (initial 0 1 1))))
         (fetch (initial 0 1 1)))
  /\ Thread.mavlink_thread faulty
       [Recv 0 (MISSION_ITEM (item 0)); Recv 1 (MISSION_COUNT 1);
        Recv 2 (MISSION_ITEM (item 0))]
       (Thread.mkWorker (fetch (initial 0 1 1)) three_listeners None false
          ([], tt))
     = Thread.Died AttributeError
         (Thread.mkWorker
            (set_wploader (add (item 0) (wploader (fetch (initial 0 1 1))))
               (fetch (initial 0 1 1)))
            three_listeners None false ([], tt))
  (* after a count: the duplicate of item 0 is dropped *)
  /\ step (Recv 0 (MISSION_ITEM (item 0))) downloading = Returned downloading
  (* item 1 completes the download *)
  /\ wpoints (wploader
       (state_of (step (Recv 0 (MISSION_ITEM (item 1))) downloading)))
     = [item 0; item 1]
  /\ wp_loaded (state_of (step (Recv 0 (MISSION_ITEM (item 1))) downloading))
     = true
  /\ received_ok
       (wpoints (wploader
          (state_of (run [Recv 0 (MISSION_ITEM (item 1))] downloading)))).
Proof.
  destruct mission_item_download as (Hitem & Hearly & _ & Hinit & Hrun).
  destruct (Hearly 0%Q (item 0) (MISSION_ITEM (item 0)) (fetch (initial 0 1 1))
              (or_introl eq_refl) eq_refl eq_refl) as [_ Hraise].
  destruct (Hraise eq_refl) as [Hstep Hthread].
  destruct (Hitem 0%Q (item 0) (MISSION_ITEM (item 0)) downloading 2
              (or_introl eq_refl) eq_refl eq_refl) as (s0 & Hs0 & _ & Hdup & _).
  destruct (Hitem 0%Q (item 1) (MISSION_ITEM (item 1)) downloading 2
              (or_introl eq_refl) eq_refl eq_refl) as (s1 & Hs1 & _ & _ & Hnext).
  destruct (Hnext eq_refl) as (Hw & _ & Hdone).
  assert (Hlast : ~ wp_seq (item 1) + 1 < 2) by (simpl; lia).
  destruct (Hdone Hlast) as [_ Hl].
  split_and!.
  - exact Hstep.
  - exact (Hthread unit faulty
             [Recv 1 (MISSION_COUNT 1); Recv 2 (MISSION_ITEM (item 0))]
             (Thread.mkWorker (fetch (initial 0 1 1)) three_listeners None
                false ([], tt)) eq_refl).
  - rewrite Hs0. f_equal. apply Hdup. vm_compute. lia.
  - rewrite Hs1. exact Hw.
  - rewrite Hs1. exact Hl.
  - apply Hrun, (Hrun [Fetch; Recv 0 (MISSION_COUNT 2);
                       Recv 0 (MISSION_ITEM (item 0))]), Hinit.
Defined.

(** ** Parameter synchronisation *)

(** The stages after [param_value_rx] leave the parameter side alone. *)
Lemma handle_param_view t m s :
  param_view (state_of (handle t m s)) = param_view (param_value_rx t m s).
Proof.
  unfold handle.
  set (s1 := param_value_rx t m s). clearbody s1.
  assert (H2 : param_view (state_of (waypoint_rx m s1)) = param_view s1).
  { unfold param_view, waypoint_rx. repeat case_match; try done. }
  destruct (waypoint_rx m s1) as [s2|x s2]; simpl in *; [|done].
  assert (H3 : param_view (waypoint_current_rx m s2) = param_view s1).
  { rewrite <- H2. by destruct m. }
  set (s3 := waypoint_current_rx m s2) in *. clearbody s3.
  rewrite <- H3. unfold param_view, waypoint_request_rx.
  repeat case_match; simpl; try done; by destruct m.
Qed.

Lemma user_param_view e s :
  match e with Fetch | Upload_begin | Upload_end => True | _ => False end ->
  param_view (state_of (step e s)) = param_view s.
Proof.
  destruct e; try done; intros _; simpl.
  - unfold send_all_waypoints_begin. by case_match.
  - unfold send_all_waypoints_end. by repeat case_match.
Qed.

Lemma length_mav_param_set_fresh n :
  length (replicate n (@None message)) = n.
Proof. apply length_replicate. Qed.

Lemma has_unknown_insert l i m :
  has_unknown l = false -> has_unknown (<[i := Some m]> l) = false.
Proof.
  revert i. induction l as [|v l IH]; intros i; simpl; [done|].
  intros [Hv Hl]%orb_false_elim. destruct i as [|i]; simpl; [done|].
  by rewrite Hv, IH.
Qed.

(** The slot list keeps the announced length. *)
Lemma params_shape_param_value_rx t m s :
  params_shape s -> params_shape (param_value_rx t m s).
Proof.
  unfold params_shape. intros Hs.
  destruct m; simpl; try done.
  destruct (decide _) as [Hne|Heq]; simpl.
  - destruct (param_index <? param_count); simpl.
    + destruct (replicate param_count None !! param_index) as [[?|]|];
        simpl; rewrite ?length_insert, length_replicate; lia.
    + rewrite length_replicate. lia.
  - destruct (param_index <? param_count); simpl; [|done].
    destruct (mav_param_set (params s) !! param_index) as [slot|];
      simpl; [|done].
    destruct slot; simpl; by rewrite length_insert.
Qed.

Lemma params_watchdog t t' s :
  params (watchdog t t' s)
  = if start (params s) && negb (has_unknown (mav_param_set (params s)))
    then set_loaded true (params s)
    else params s.
Proof.
  unfold watchdog. destruct (start (params s)); [|done]. simpl.
  destruct (has_unknown (mav_param_set (params s))); simpl;
    try match goal with |- context [if ?b then _ else _] => destruct b end;
    done.
Qed.

Lemma params_shape_step e s :
  params_shape s -> params_shape (state_of (step e s)).
Proof.
  intros Hs. destruct e as [t t'|t m| | |].
  - unfold params_shape. simpl. rewrite params_watchdog.
    by destruct (_ && _).
  - pose proof (handle_param_view t m s) as Hv.
    apply (params_shape_param_value_rx t m) in Hs.
    unfold params_shape in *. simpl.
    injection Hv as Hp _ _ _. by rewrite Hp.
  - done.
  - pose proof (user_param_view Upload_begin s I) as Hv.
    unfold params_shape in *. injection Hv as Hp _ _ _.
    simpl in *. by rewrite Hp.
  - pose proof (user_param_view Upload_end s I) as Hv.
    unfold params_shape in *. injection Hv as Hp _ _ _.
    simpl in *. by rewrite Hp.
Qed.

Lemma params_shape_initial t0 sys comp : params_shape (initial t0 sys comp).
Proof. done. Qed.

(** *** The [loaded] flag *)

(** Processing a message never sets [loaded]. *)
Lemma loaded_param_value_rx t m s :
  loaded (params s) = false -> loaded (params (param_value_rx t m s)) = false.
Proof.
  intros Hl. destruct m; simpl; try done.
  destruct (decide _); destruct (param_index <? param_count); simpl;
    try done;
    match goal with |- context [?l !! param_index] =>
      destruct (l !! param_index) as [[?|]|] end; done.
Qed.

Lemma loaded_sound_param_value_rx t m s :
  loaded_sound s -> loaded_sound (param_value_rx t m s).
Proof.
  unfold loaded_sound. intros Hs.
  destruct m; simpl; try done.
  destruct (decide _); destruct (param_index <? param_count); simpl;
    try done;
    match goal with |- context [?l !! param_index] =>
      destruct (l !! param_index) as [[?|]|] end; simpl; try done.
  all: intros Hl; destruct (Hs Hl) as [Hst Hu]; split; [done|].
  all: by apply has_unknown_insert.
Qed.

Lemma loaded_sound_step e s :
  loaded_sound s -> loaded_sound (state_of (step e s)).
Proof.
  intros Hs. destruct e as [t t'|t m| | |].
  - unfold loaded_sound in *. simpl. rewrite params_watchdog.
    destruct (start (params s)) eqn:Hst; simpl;
      [|intros Hl; destruct (Hs Hl); congruence].
    destruct (has_unknown (mav_param_set (params s))) eqn:Hu; simpl;
      [|done].
    intros Hl. destruct (Hs Hl). split; congruence.
  - pose proof (handle_param_view t m s) as Hv.
    apply (loaded_sound_param_value_rx t m) in Hs.
    unfold loaded_sound in *. injection Hv as Hp _ _ _.
    simpl in *. by rewrite Hp.
  - done.
  - pose proof (user_param_view Upload_begin s I) as Hv.
    unfold loaded_sound in *. injection Hv as Hp _ _ _.
    simpl in *. by rewrite Hp.
  - pose proof (user_param_view Upload_end s I) as Hv.
    unfold loaded_sound in *. injection Hv as Hp _ _ _.
    simpl in *. by rewrite Hp.
Qed.

Lemma loaded_iff_watchdog t t' s :
  loaded_sound s -> loaded_iff (watchdog t t' s).
Proof.
  unfold loaded_sound, loaded_iff. intros Hs. rewrite params_watchdog.
  destruct (start (params s)) eqn:Hst; simpl.
  - destruct (has_unknown (mav_param_set (params s))) eqn:Hu; simpl.
    + rewrite Hst, Hu. split; [intros Hl; by destruct (Hs Hl)|by intros []].
    + done.
  - rewrite Hst. split; [intros Hl; by destruct (Hs Hl)|by intros []].
Qed.

(** C2, as the specification states it, right after the dispatch of the
    [PARAM_VALUE] that fills the only slot of a set of one: the set has
    started and no slot is unknown, yet [loaded] is still false. *)
Lemma loaded_iff_counterexample :
  ~ loaded_iff
      (state_of (run [Tick 0 0; Recv 0 (PARAM_VALUE "SYSID_THISMAV" 1 0 1)]
                   (initial 0 1 1))).
Proof.
  intros [_ Hl]. specialize (Hl (conj eq_refl eq_refl)). discriminate Hl.
Qed.

(** C2 (amended).  At every point of a run [loaded] implies that the set
    has started and no slot is unknown.  The converse holds right after
    the watchdog step that opens each loop iteration, which is where
    [loaded] is set: processing a [PARAM_VALUE], the one that fills the
    last unknown slot included, leaves [loaded] false. *)
Theorem loaded_set_by_watchdog :
  (forall (es : list event) (t0 : Q) (sys comp : Z),
      loaded_sound (state_of (run es (initial t0 sys comp))))
  /\ (forall (es : list event) (t0 t t' : Q) (sys comp : Z),
      loaded_iff (watchdog t t' (state_of (run es (initial t0 sys comp)))))
  /\ (forall (t : Q) (m : message) (s : Link),
      loaded (params s) = false ->
      loaded (params (state_of (step (Recv t m) s))) = false).
Proof.
  assert (Hsound : forall es t0 sys comp,
             loaded_sound (state_of (run es (initial t0 sys comp)))).
  { intros es t0 sys comp. apply run_invariant; [apply loaded_sound_step|].
    by intros [=]. }
  split_and!.
  - exact Hsound.
  - intros. apply loaded_iff_watchdog, Hsound.
  - intros t m s Hl. pose proof (handle_param_view t m s) as Hv.
    injection Hv as Hp _ _ _. simpl. rewrite Hp.
    by apply loaded_param_value_rx.
Qed.

Lemma loaded_set_by_watchdog_witness :
  loaded (params
    (state_of (step (Recv 0 (PARAM_VALUE "SYSID_THISMAV" 1 0 1))
                 (state_of (run [Tick 0 0] (initial 0 1 1)))))) = false
  /\ loaded_iff
       (watchdog 1 1
          (state_of (run [Tick 0 0;
                          Recv 0 (PARAM_VALUE "SYSID_THISMAV" 1 0 1)]
                       (initial 0 1 1))))
  /\ loaded (params
       (watchdog 1 1
          (state_of (run [Tick 0 0;
                          Recv 0 (PARAM_VALUE "SYSID_THISMAV" 1 0 1)]
                       (initial 0 1 1))))) = true.
Proof.
  destruct loaded_set_by_watchdog as (Hsound & Hiff & Hrecv).
  split_and!.
  - apply Hrecv. reflexivity.
  - apply Hiff.
  - apply (Hiff [Tick 0 0; Recv 0 (PARAM_VALUE "SYSID_THISMAV" 1 0 1)]
             0%Q 1%Q 1%Q 1%Z 1%Z).
    split; reflexivity.
Defined.

(** *** The keyed parameter mapping *)

(** With the slot list as long as the count, line 486 cannot raise, and
    line 490 is reached. *)
Lemma mav_param_param_value_rx t id v i c s :
  params_shape s ->
  mav_param (param_value_rx t (PARAM_VALUE id v i c) s)
  = <[id := v]> (mav_param s).
Proof.
  unfold params_shape. intros Hs. simpl.
  destruct (decide _) as [Hne|Heq]; simpl.
  - destruct (i <? c) eqn:Hic; simpl; [|done].
    apply Nat.ltb_lt in Hic.
    rewrite (lookup_replicate_2 c None i Hic). done.
  - destruct (i <? c) eqn:Hic; simpl; [|done].
    apply Nat.ltb_lt in Hic.
    apply dec_stable in Heq. rewrite Heq, Nat2Z.id in Hs.
    destruct (lookup_lt_is_Some_2 (mav_param_set (params s)) i)
      as [slot Hslot]; [lia|].
    rewrite Hslot. by destruct slot.
Qed.

Lemma mav_param_step e s :
  params_shape s ->
  mav_param (state_of (step e s))
  = match e with
    | Recv _ (PARAM_VALUE id v _ _) => <[id := v]> (mav_param s)
    | _ => mav_param s
    end.
Proof.
  intros Hs. destruct e as [t t'|t m| | |].
  - simpl. unfold watchdog. repeat case_match; done.
  - pose proof (handle_param_view t m s) as Hv.
    injection Hv as _ Hm _ _. simpl. rewrite Hm.
    destruct m; try done. by apply mav_param_param_value_rx.
  - done.
  - pose proof (user_param_view Upload_begin s I) as Hv.
    by injection Hv as _ Hm _ _.
  - pose proof (user_param_view Upload_end s I) as Hv.
    by injection Hv as _ Hm _ _.
Qed.

Lemma latest_param_value_step key e acc (m : gmap string float) :
  m !! key = acc ->
  match e with
  | Recv _ (PARAM_VALUE id v _ _) => <[id := v]> m
  | _ => m
  end !! key
  = latest_param_value key [e] acc.
Proof.
  intros <-. destruct e as [| t msg | | |]; simpl; try done.
  destruct msg; simpl; try done.
  rewrite lookup_insert. by destruct (decide (param_id = key)).
Qed.

Lemma latest_param_value_cons key e es acc :
  latest_param_value key (e :: es) acc
  = latest_param_value key es (latest_param_value key [e] acc).
Proof. destruct e as [| t msg | | |]; try done. by destruct msg. Qed.

Lemma mav_param_run key es s :
  params_shape s ->
  mav_param (state_of (run es s)) !! key
  = latest_param_value key (processed es s) (mav_param s !! key).
Proof.
  revert s. induction es as [|e es IH]; intros s Hs; [done|].
  rewrite state_of_run_cons. cbn [processed].
  rewrite latest_param_value_cons.
  pose proof (mav_param_step e s Hs) as Hm.
  pose proof (params_shape_step e s Hs) as Hs'.
  pose proof (latest_param_value_step key e _ (mav_param s) eq_refl) as Hl.
  rewrite <- Hm in Hl.
  destruct (step e s) as [s'|x s']; simpl in *.
  - rewrite IH by done. by rewrite Hl.
  - by rewrite Hl.
Qed.

Lemma latest_param_value_some key es acc :
  is_Some acc -> is_Some (latest_param_value key es acc).
Proof.
  revert acc. induction es as [|e es IH]; intros acc Hacc; [done|].
  rewrite latest_param_value_cons. apply IH.
  destruct e as [| t msg | | |]; try done.
  destruct msg; simpl; try done. by destruct (decide _).
Qed.

Lemma latest_param_value_received key es acc t v i c :
  Recv t (PARAM_VALUE key v i c) ∈ es ->
  is_Some (latest_param_value key es acc).
Proof.
  revert acc. induction es as [|e es IH]; intros acc Hin.
  - by apply elem_of_nil in Hin.
  - rewrite latest_param_value_cons.
    apply elem_of_cons in Hin as [<-|Hin]; [|by apply IH].
    apply latest_param_value_some. simpl. by rewrite decide_True.
Qed.

(** A run that meets no raise processes all its events. *)
Lemma processed_returned es s s' :
  run es s = Returned s' -> processed es s = es.
Proof.
  revert s. induction es as [|e es IH]; intros s; simpl; [done|].
  destruct (step e s) as [s1|x s1]; [|done].
  intros Hr. by rewrite (IH s1).
Qed.

(** C6.  After any run from the initial state, the keyed mapping holds,
    under every key, the value of the last [PARAM_VALUE] with that
    [param_id] among the events processed (whatever its [param_index]),
    and has no entry only if there was none; so every [PARAM_VALUE]
    processed has an entry under its [param_id]. *)
Theorem mav_param_latest (es : list event) (t0 : Q) (sys comp : Z) :
  (forall key : string,
      mav_param (state_of (run es (initial t0 sys comp))) !! key
      = latest_param_value key (processed es (initial t0 sys comp)) None)
  /\ (forall (t : Q) (id : string) (v : float) (i c : nat),
      Recv t (PARAM_VALUE id v i c) ∈ processed es (initial t0 sys comp) ->
      is_Some (mav_param (state_of (run es (initial t0 sys comp))) !! id)).
Proof.
  assert (Hl : forall key,
             mav_param (state_of (run es (initial t0 sys comp))) !! key
             = latest_param_value key (processed es (initial t0 sys comp))
                 None).
  { intros key. by rewrite mav_param_run. }
  split; [exact Hl|].
  intros t id v i c Hin. rewrite Hl.
  by eapply latest_param_value_received.
Qed.

Lemma mav_param_latest_witness :
  mav_param (state_of (run three_values (initial 0 1 1))) !! "RTL_ALT"
  = Some 2000%float
  /\ is_Some (mav_param (state_of (run three_values (initial 0 1 1)))
              !! "WPNAV_SPEED").
Proof.
  destruct (mav_param_latest three_values 0 1 1) as [Hl Hs].
  split.
  - rewrite Hl. reflexivity.
  - apply (Hs 0%Q "WPNAV_SPEED" 500%float 1 2).
    change (processed three_values (initial 0 1 1)) with three_values.
    unfold three_values. do 2 right. left.
Defined.

(** *** The watchdog's re-requests *)

(** The loop sends one request per unknown slot, in index order, and stops
    after the request that takes the counter past 50. *)
Lemma rerequest_length sys comp i c l :
  c <= 50 ->
  length (rerequest sys comp i c l)
  = Nat.min (51 - c) (length (List.filter unknown l)).
Proof.
  revert i c. induction l as [|v l IH]; intros i c Hc; simpl.
  - lia.
  - destruct (unknown v); simpl.
    + destruct (50 <? c + 1) eqn:H50.
      * apply Nat.ltb_lt in H50. simpl. lia.
      * apply Nat.ltb_ge in H50. rewrite IH by lia. lia.
    + by apply IH.
Qed.

(** C4, at a set of 100 with only slot 0 known, one second after it was
    announced: the watchdog fires and sends 51 requests, for indices 1 to
    51, each with an empty [param_id]. *)
Theorem watchdog_rerequests_51 :
  fires 1 sparse = true
  /\ sent (watchdog 1 1 sparse)
     = map (param_request_read_send 1 1 "") (seq 1 51)
  /\ length (sent (watchdog 1 1 sparse)) = 51.
Proof. split_and!; reflexivity. Qed.

(** *** The watchdog's duration *)

Lemma duration_step e s :
  duration (state_of (step e s))
  = match e with
    | Tick t _ => if fires t s then repeat_duration else duration s
    | Recv _ (PARAM_VALUE _ _ i c) =>
        if fills_unknown i c s then start_duration else duration s
    | _ => duration s
    end.
Proof.
  destruct e as [t t'|t m| | |].
  - simpl. unfold watchdog, fires.
    destruct (start (params s)); [|done]. simpl.
    destruct (has_unknown (mav_param_set (params s))); simpl; [|done].
    by destruct (negb (loaded (params s)) && _).
  - pose proof (handle_param_view t m s) as Hv.
    injection Hv as _ _ _ Hd. simpl. rewrite Hd.
    destruct m; try done. unfold fills_unknown. simpl.
    destruct (decide _) as [Hne|Heq]; simpl.
    + destruct (param_index <? param_count) eqn:Hic; simpl; [|done].
      apply Nat.ltb_lt in Hic.
      by rewrite (lookup_replicate_2 param_count None param_index Hic).
    + destruct (param_index <? param_count); simpl; [|done].
      by destruct (mav_param_set (params s) !! param_index) as [[?|]|].
  - done.
  - pose proof (user_param_view Upload_begin s I) as Hv.
    by injection Hv as _ _ _ Hd.
  - pose proof (user_param_view Upload_end s I) as Hv.
    by injection Hv as _ _ _ Hd.
Qed.

(** C5, as the specification states it, at [rerequested]: a re-request has
    been sent and the duration is [repeat_duration]; the answer to that
    re-request, a [PARAM_VALUE] with the same [param_count], puts the
    duration back to [start_duration]. *)
Lemma duration_counterexample :
  sent rerequested = [param_request_read_send 1 1 "" 1]
  /\ duration rerequested = repeat_duration
  /\ mav_param_count
       (params (state_of (step (Recv 2 (PARAM_VALUE "RTL_SPEED" 0 1 2))
                            rerequested)))
     = mav_param_count (params rerequested)
  /\ duration (state_of (step (Recv 2 (PARAM_VALUE "RTL_SPEED" 0 1 2))
                           rerequested))
     = start_duration
  /\ start_duration <> repeat_duration.
Proof. split_and!; try reflexivity. discriminate. Qed.

(** C5 (amended).  The duration starts at [start_duration] (0.2 s).  A
    firing of the watchdog sets it to [repeat_duration] (1 s); a
    [PARAM_VALUE] that lands in an unknown slot, of the current set or of
    a new one, sets it back to [start_duration]; nothing else changes it.
    So once a re-request has occurred the duration stays at
    [repeat_duration] exactly until the next [PARAM_VALUE] that fills an
    unknown slot. *)
Theorem duration_changes :
  (forall (t0 : Q) (sys comp : Z),
      duration (initial t0 sys comp) = start_duration)
  /\ (start_duration == 2 # 10)%Q /\ (repeat_duration == 1)%Q
  /\ (forall (e : event) (s : Link),
      duration (state_of (step e s))
      = match e with
        | Tick t _ => if fires t s then repeat_duration else duration s
        | Recv _ (PARAM_VALUE _ _ i c) =>
            if fills_unknown i c s then start_duration else duration s
        | _ => duration s
        end)
  /\ (forall (e : event) (s : Link),
      duration s = repeat_duration ->
      duration (state_of (step e s)) <> repeat_duration ->
      exists t id v i c,
        e = Recv t (PARAM_VALUE id v i c)
        /\ fills_unknown i c s = true
        /\ duration (state_of (step e s)) = start_duration).
Proof.
  split_and!; try done.
  - apply duration_step.
  - intros e s Hrep Hne. rewrite duration_step in *.
    destruct e as [t t'|t m| | |]; try done.
    + by destruct (fires t s).
    + destruct m; try done.
      destruct (fills_unknown param_index param_count s) eqn:Hf; [|done].
      by exists t, param_id, param_value, param_index, param_count.
Qed.

Lemma duration_changes_witness :
  duration (state_of (step (Tick 1 1)
              (state_of (run [Recv 0 (PARAM_VALUE "RTL_ALT" 1500 0 2)]
                           (initial 0 1 1)))))
  = repeat_duration
  /\ exists t id v i c,
       Recv 2 (PARAM_VALUE "RTL_SPEED" 0 1 2) = Recv t (PARAM_VALUE id v i c)
       /\ fills_unknown i c rerequested = true
       /\ duration (state_of (step (Recv 2 (PARAM_VALUE "RTL_SPEED" 0 1 2))
                                rerequested))
          = start_duration.
Proof.
  destruct duration_changes as (_ & _ & _ & Hstep & Hback).
  split.
  - rewrite Hstep. reflexivity.
  - apply Hback; [reflexivity|]. rewrite Hstep. discriminate.
Defined.

(** ** Attribute listeners *)

Lemma land_lor_absorb a b : Z.land (Z.lor a b) b = b.
Proof.
  apply Z.bits_inj'. intros n Hn.
  rewrite Z.land_spec, Z.lor_spec. by destruct (Z.testbit a n), (Z.testbit b n).
Qed.

Lemma positive_flag flags c :
  (0 <= c)%Z -> (0 <? Z.land flags c)%Z = truthy (Z.land flags c).
Proof.
  intros Hc. unfold truthy.
  assert (0 <= Z.land flags c)%Z by (apply Z.land_nonneg; lia).
  destruct (Z.ltb_spec 0 (Z.land flags c)), (Z.eqb_spec (Z.land flags c) 0);
    simpl; lia.
Qed.

(** C7.  With flag constants that are positive, the listener sets [ekf_ok]
    to [abs and not const] when the vehicle is armed and to [abs or pred]
    otherwise, where [abs], [const] and [pred] are the truth values of
    [flags & EKF_POS_HORIZ_ABS], [flags & EKF_CONST_POS_MODE] and
    [flags & EKF_PRED_POS_HORIZ_ABS].  Disarmed with only
    [EKF_PRED_POS_HORIZ_ABS] set it is true; armed with
    [EKF_POS_HORIZ_ABS | EKF_CONST_POS_MODE] it is false. *)
Theorem ekf_ok_predicate (d : dialect) (flags : Z) (a : attrs) :
  (0 < EKF_POS_HORIZ_ABS d)%Z ->
  (0 < EKF_CONST_POS_MODE d)%Z ->
  (0 < EKF_PRED_POS_HORIZ_ABS d)%Z ->
  ekf_ok (ekf_status_report_listener d flags a)
  = (if armed a
     then truthy (Z.land flags (EKF_POS_HORIZ_ABS d))
          && negb (truthy (Z.land flags (EKF_CONST_POS_MODE d)))
     else truthy (Z.land flags (EKF_POS_HORIZ_ABS d))
          || truthy (Z.land flags (EKF_PRED_POS_HORIZ_ABS d)))
  /\ (armed a = false ->
      ekf_ok (ekf_status_report_listener d (EKF_PRED_POS_HORIZ_ABS d) a)
      = true)
  /\ (armed a = true ->
      ekf_ok (ekf_status_report_listener d
                (Z.lor (EKF_POS_HORIZ_ABS d) (EKF_CONST_POS_MODE d)) a)
      = false)
  /\ armed (ekf_status_report_listener d flags a) = armed a.
Proof.
  intros Habs Hconst Hpred. split_and!.
  - simpl. by rewrite !positive_flag by lia.
  - intros Ha. simpl. rewrite Ha, Z.land_diag.
    apply orb_true_iff. right. by apply Z.ltb_lt.
  - intros Ha. simpl. rewrite Ha, land_lor_absorb.
    apply andb_false_iff. right. apply negb_false_iff. by apply Z.ltb_lt.
  - done.
Qed.

Lemma ekf_ok_predicate_witness :
  ekf_ok (ekf_status_report_listener ardupilotmega 512 attrs_init) = true
  /\ ekf_ok (ekf_status_report_listener ardupilotmega (Z.lor 16 128)
               (mkAttrs true None None None true [])) = false.
Proof.
  destruct (ekf_ok_predicate ardupilotmega 512 attrs_init
              ltac:(reflexivity) ltac:(reflexivity) ltac:(reflexivity))
    as (_ & Hdis & _ & _).
  destruct (ekf_ok_predicate ardupilotmega (Z.lor 16 128)
              (mkAttrs true None None None true [])
              ltac:(reflexivity) ltac:(reflexivity) ltac:(reflexivity))
    as (_ & _ & Harm & _).
  split; [exact (Hdis eq_refl)|exact (Harm eq_refl)].
Defined.

(** The quotient the listener stores is exact only for whole degrees. *)
Lemma mount_status_exact pointing_a pointing_b pointing_c a :
  mount_pitch (mount_status_listener pointing_a pointing_b pointing_c a)
  = Some (pointing_a / 100)%Z
  /\ ((inject_Z (pointing_a / 100) == pointing_a # 100)%Q
      <-> (pointing_a mod 100 = 0)%Z).
Proof.
  split; [done|]. unfold Qeq, inject_Z. simpl.
  pose proof (Z.div_mod pointing_a 100 ltac:(lia)). lia.
Qed.

(** C8, at [pointing_a = 150] (1.5 degrees): the listener stores 1, which
    is not 150/100; likewise -150 gives -2. *)
Theorem mount_status_floor :
  mount_pitch (mount_status_listener 150 (-150) 0 attrs_init) = Some 1%Z
  /\ mount_roll (mount_status_listener 150 (-150) 0 attrs_init)
     = Some (-2)%Z
  /\ ~ (inject_Z 1 == 150 # 100)%Q.
Proof. split_and!; [reflexivity|reflexivity|]. unfold Qeq. simpl. lia. Qed.

(** ** [close] *)

Section CloseFacts.
Import Close.

Variable others : nat -> list packet -> list packet.
Variable q0 : list packet.

(** The wait started at the [n]-th test ends at the first test from [n] on
    that finds the queue empty, if there is one within [fuel] sleeps. *)
Lemma wait_drain_spec fuel n :
  match wait_drain others fuel n (queue_at others n q0) with
  | Some (m, q') =>
      n <= m <= n + fuel /\ q' = [] /\ queue_at others m q0 = []
      /\ forall j, n <= j < m -> queue_at others j q0 <> []
  | None => forall j, n <= j <= n + fuel -> queue_at others j q0 <> []
  end.
Proof.
  revert n. induction fuel as [|fuel IH]; intros n.
  - destruct (queue_at others n q0) as [|p q] eqn:Hq; simpl.
    + split_and!; [lia|lia|done|done|]. intros j Hj. lia.
    + intros j Hj. assert (j = n) as -> by lia. by rewrite Hq.
  - destruct (queue_at others n q0) as [|p q] eqn:Hq; simpl.
    + split_and!; [lia|lia|done|done|]. intros j Hj. lia.
    + specialize (IH (S n)). simpl in IH. rewrite Hq in IH.
      destruct (wait_drain others fuel (S n) (others n (p :: q)))
        as [[m q']|].
      * destruct IH as (Hm & Hq' & Hm0 & Hbefore).
        split_and!; [lia|lia|done|done|].
        intros j Hj. destruct (decide (j = n)) as [->|Hne].
        -- by rewrite Hq.
        -- apply Hbefore. lia.
      * intros j Hj. destruct (decide (j = n)) as [->|Hne].
        -- by rewrite Hq.
        -- apply IH. lia.
Qed.

End CloseFacts.

(** C9, as the specification states it: no number of sleeps bounds the
    wait.  With one packet queued and nobody taking it out, [close] is
    still waiting after any number of sleeps. *)
Lemma close_unbounded_counterexample : ~ exists bound, bounded_drain bound.
Proof.
  intros [bound Hb]. destruct (Hb nobody stuck) as [r Hr].
  assert (Hnone : forall fuel n,
             Close.wait_drain nobody fuel n [[x00%byte]] = None).
  { induction fuel as [|fuel IH]; intros n; simpl; [done|apply IH]. }
  unfold Close.close in Hr. simpl in Hr. by rewrite Hnone in Hr.
Qed.

(** C9 (amended).  [close] sets [exiting], then sleeps until a test finds
    the outbound queue empty, and only then closes the transport: when it
    returns it has slept through every test that found the queue
    non-empty and the queue is empty.  It returns as soon as the queue is
    found empty, and there is no bound on the wait: while the queue is
    never found empty, [close] does not return. *)
Theorem close_waits_for_drain
    (others : nat -> list Close.packet -> list Close.packet)
    (c : Close.conn) :
  (forall fuel c' tr,
      Close.close others fuel c = Some (c', tr) ->
      exists n,
        n <= fuel
        /\ tr = Close.set_exiting :: replicate n Close.sleep
                ++ [Close.master_close]
        /\ Close.exiting c' = true
        /\ Close.out_queue c' = []
        /\ Close.master_open c' = false
        /\ Close.queue_at others n (Close.out_queue c) = []
        /\ forall j, j < n ->
             Close.queue_at others j (Close.out_queue c) <> [])
  /\ (forall n fuel,
      Close.queue_at others n (Close.out_queue c) = [] ->
      n <= fuel -> is_Some (Close.close others fuel c))
  /\ ((forall n, Close.queue_at others n (Close.out_queue c) <> []) ->
      forall fuel, Close.close others fuel c = None).
Proof.
  split_and!.
  - intros fuel c' tr Hc. unfold Close.close in Hc.
    pose proof (wait_drain_spec others (Close.out_queue c) fuel 0) as Hw.
    simpl in Hw.
    destruct (Close.wait_drain others fuel 0 (Close.out_queue c))
      as [[n q']|]; [|done].
    destruct Hw as (Hn & -> & Hempty & Hbefore).
    injection Hc as <- <-. exists n.
    split_and!; try done; [lia|]. intros j Hj. apply Hbefore. lia.
  - intros n fuel Hempty Hn. unfold Close.close.
    pose proof (wait_drain_spec others (Close.out_queue c) fuel 0) as Hw.
    simpl in Hw.
    destruct (Close.wait_drain others fuel 0 (Close.out_queue c))
      as [[m q']|]; [done|].
    exfalso. apply (Hw n); [lia|done].
  - intros Hbusy fuel. unfold Close.close.
    pose proof (wait_drain_spec others (Close.out_queue c) fuel 0) as Hw.
    simpl in Hw.
    destruct (Close.wait_drain others fuel 0 (Close.out_queue c))
      as [[m q']|]; [|done].
    destruct Hw as (_ & _ & Hempty & _). by destruct (Hbusy m).
Qed.

Lemma close_waits_for_drain_witness :
  (exists r, Close.close one_per_sleep 1 stuck = Some r
             /\ r.2 = [Close.set_exiting; Close.sleep; Close.master_close])
  /\ forall fuel, Close.close nobody fuel stuck = None.
Proof.
  destruct (close_waits_for_drain one_per_sleep stuck) as (Hret & Hdrain & _).
  destruct (close_waits_for_drain nobody stuck) as (_ & _ & Hbusy).
  split.
  - destruct (Hdrain 1 1 eq_refl (le_n 1)) as [[c' tr] Hr].
    exists (c', tr). split; [exact Hr|].
    destruct (Hret 1 c' tr Hr) as (n & Hn & -> & _ & _ & _ & Hempty & Hbefore).
    destruct n as [|[|n]]; [|reflexivity|exfalso; clear -Hn; lia].
    discriminate Hempty.
  - apply Hbusy. intros n. induction n as [|n IH]; [done|exact IH].
Defined.

(** * Further properties *)

(** ** Registering and removing listeners *)

Lemma get_on_message_new name f (t : gmap string (list fn)) :
  f ∉ Listeners.get t name ->
  Listeners.get (Listeners.on_message name f t) name
  = Listeners.get t name ++ [f].
Proof.
  intros Hf. unfold Listeners.on_message.
  destruct (t !! name) as [l|] eqn:Hl.
  - rewrite decide_False by done. by rewrite get_insert_eq.
  - rewrite get_insert_eq. rewrite decide_False by apply not_elem_of_nil.
    rewrite get_insert_eq. unfold Listeners.get. by rewrite Hl.
Qed.

Lemma on_message_new_eq name f (t : gmap string (list fn)) :
  f ∉ Listeners.get t name ->
  Listeners.on_message name f t = <[name := Listeners.get t name ++ [f]]> t.
Proof.
  intros Hf. unfold Listeners.on_message.
  destruct (t !! name) as [l|] eqn:Hl.
  - by rewrite decide_False by done.
  - rewrite get_insert_eq. rewrite decide_False by apply not_elem_of_nil.
    rewrite insert_insert_eq. unfold Listeners.get. by rewrite Hl.
Qed.

Lemma list_remove_snoc f (l : list fn) :
  f ∉ l -> Listeners.list_remove f (l ++ [f]) = l.
Proof.
  induction l as [|g l IH]; intros Hf; simpl.
  - by rewrite decide_True.
  - apply not_elem_of_cons in Hf as [Hne Hf].
    rewrite decide_False by done. by rewrite IH.
Qed.

Lemma list_remove_gone f (l : list fn) :
  NoDup l -> f ∉ Listeners.list_remove f l.
Proof.
  induction 1 as [|g l Hg Hl IH]; simpl; [apply not_elem_of_nil|].
  destruct (decide (g = f)) as [->|Hne]; [done|].
  apply not_elem_of_cons. split; [done|exact IH].
Qed.

Lemma no_empty_on_message name f t :
  no_empty t -> no_empty (Listeners.on_message name f t).
Proof.
  intros Ht name' Hl. unfold Listeners.on_message in Hl.
  destruct (t !! name) as [l|] eqn:Hname.
  - destruct (decide (f ∈ Listeners.get t name)); [by apply (Ht name')|].
    destruct (decide (name = name')) as [->|Hne].
    + rewrite lookup_insert_eq in Hl. injection Hl as Hl.
      by apply app_eq_nil in Hl as [_ [=]].
    + rewrite lookup_insert_ne in Hl by done. by apply (Ht name').
  - rewrite get_insert_eq in Hl.
    rewrite decide_False in Hl by apply not_elem_of_nil.
    destruct (decide (name = name')) as [->|Hne].
    + by rewrite lookup_insert_eq in Hl.
    + rewrite !lookup_insert_ne in Hl by done. by apply (Ht name').
Qed.

Lemma no_empty_remove name f t t' :
  no_empty t ->
  Listeners.remove_message_listener name f t = Returned t' ->
  no_empty t'.
Proof.
  intros Ht Hr name' Hl. unfold Listeners.remove_message_listener in Hr.
  destruct (t !! name) as [l|] eqn:Hname.
  - destruct (decide (f ∈ l)); [|done]. injection Hr as <-.
    destruct (decide (length (Listeners.list_remove f l) = 0)) as [H0|H0].
    + destruct (decide (name = name')) as [->|Hne].
      * by rewrite lookup_delete_eq in Hl.
      * rewrite lookup_delete_ne in Hl by done. by apply (Ht name').
    + destruct (decide (name = name')) as [->|Hne].
      * rewrite lookup_insert_eq in Hl. injection Hl as Hl.
        by rewrite Hl in H0.
      * rewrite lookup_insert_ne in Hl by done. by apply (Ht name').
  - injection Hr as <-. by apply (Ht name').
Qed.

(** X1.  Every table built from the empty one by [on_message] and
    [remove_message_listener] lists no callable twice under a name and
    keeps no name with an empty list. *)
Theorem built_table_invariant (t : gmap string (list fn)) :
  built t -> Listeners.table_ok t /\ no_empty t.
Proof.
  induction 1 as [|name f t Hb [Hok Hne]|name f t t' Hb [Hok Hne] Hr].
  - split; [apply table_ok_empty|]. intros name Hl.
    by rewrite lookup_empty in Hl.
  - split; [by apply table_ok_on_message|by apply no_empty_on_message].
  - split; [|by eapply no_empty_remove].
    pose proof (table_ok_remove name f t Hok) as Hok'.
    by rewrite Hr in Hok'.
Qed.

Lemma built_table_invariant_witness :
  Listeners.table_ok three_listeners /\ no_empty three_listeners.
Proof.
  apply built_table_invariant. unfold three_listeners.
  do 3 apply built_on_message. apply built_empty.
Defined.

(** X2.  Removing a callable right after registering it gives back the
    table there was, when the callable was not registered under that name
    before and the table keeps no empty list. *)
Theorem remove_after_register (name : string) (f : fn)
    (t : gmap string (list fn)) :
  no_empty t ->
  f ∉ Listeners.get t name ->
  Listeners.remove_message_listener name f (Listeners.on_message name f t)
  = Returned t.
Proof.
  intros Hne Hf.
  rewrite (on_message_new_eq name f t Hf).
  unfold Listeners.remove_message_listener. rewrite lookup_insert_eq.
  rewrite decide_True by (apply elem_of_app; right; by left).
  rewrite (list_remove_snoc f _ Hf). f_equal.
  assert (Hl0 : match Listeners.get t name with
                | [] => t !! name = None
                | l0 => t !! name = Some l0
                end).
  { unfold Listeners.get. destruct (t !! name) as [[|g l]|] eqn:Hl; try done.
    by destruct (Hne name). }
  destruct (Listeners.get t name) as [|g l0].
  - rewrite decide_True by done.
    rewrite delete_insert_eq. by apply delete_id.
  - rewrite decide_False by done.
    rewrite insert_insert_eq. by apply insert_id.
Qed.

Lemma three_listeners_ok :
  Listeners.table_ok three_listeners /\ no_empty three_listeners.
Proof.
  unfold three_listeners. split.
  - do 3 apply table_ok_on_message. apply table_ok_empty.
  - do 3 apply no_empty_on_message. intros name Hl.
    by rewrite lookup_empty in Hl.
Qed.

Lemma remove_after_register_witness :
  Listeners.remove_message_listener "ATTITUDE" 4
    (Listeners.on_message "ATTITUDE" 4 three_listeners)
  = Returned three_listeners.
Proof.
  apply remove_after_register.
  - apply three_listeners_ok.
  - unfold Listeners.get. vm_compute. inversion 1.
Defined.

(** X3.  Removing a registered callable from a table without duplicates
    succeeds and leaves it unlisted under that name.  Removing it a second
    time raises [ValueError] when other listeners remain under the name,
    and returns silently when it was the last one (the name is gone). *)
Theorem remove_twice (name : string) (f : fn) (t : gmap string (list fn))
    (l : list fn) :
  Listeners.table_ok t ->
  t !! name = Some l ->
  f ∈ l ->
  exists t1,
    Listeners.remove_message_listener name f t = Returned t1
    /\ (f ∉ Listeners.get t1 name)
    /\ Listeners.get t1 name = Listeners.list_remove f l
    /\ Listeners.remove_message_listener name f t1
       = match Listeners.list_remove f l with
         | [] => Returned t1
         | _ :: _ => Raised ValueError t1
         end.
Proof.
  intros Hok Hl Hin.
  pose proof (list_remove_gone f l (Hok name l Hl)) as Hgone.
  unfold Listeners.remove_message_listener at 1. rewrite Hl.
  rewrite decide_True by done.
  destruct (decide (length (Listeners.list_remove f l) = 0)) as [H0|H0].
  - apply nil_length_inv in H0.
    exists (delete name t). split; [done|].
    unfold Listeners.get, Listeners.remove_message_listener.
    rewrite lookup_delete_eq. simpl. rewrite H0.
    split_and!; [apply not_elem_of_nil|done|done].
  - exists (<[name := Listeners.list_remove f l]> t). split; [done|].
    unfold Listeners.get, Listeners.remove_message_listener.
    rewrite lookup_insert_eq. simpl.
    split_and!; [done|done|].
    rewrite decide_False by done.
    by destruct (Listeners.list_remove f l).
Qed.

Lemma remove_twice_witness :
  (exists t1,
      Listeners.remove_message_listener "HEARTBEAT" 1 three_listeners
      = Returned t1
      /\ Listeners.remove_message_listener "HEARTBEAT" 1 t1
         = Raised ValueError t1)
  /\ (exists t1,
      Listeners.remove_message_listener "*" 3 three_listeners = Returned t1
      /\ Listeners.remove_message_listener "*" 3 t1 = Returned t1).
Proof.
  split.
  - destruct (remove_twice "HEARTBEAT" 1 three_listeners [1; 2]
                (proj1 three_listeners_ok) eq_refl)
      as (t1 & H1 & _ & _ & H2); [left|].
    exists t1. split; [exact H1|exact H2].
  - destruct (remove_twice "*" 3 three_listeners [3]
                (proj1 three_listeners_ok) eq_refl)
      as (t1 & H1 & _ & _ & H2); [left|].
    exists t1. split; [exact H1|exact H2].
Defined.

Lemma get_register_all name fs (t : gmap string (list fn)) :
  NoDup fs ->
  (forall f, f ∈ fs -> f ∉ Listeners.get t name) ->
  Listeners.get (register_all name fs t) name = Listeners.get t name ++ fs.
Proof.
  revert t. induction fs as [|f fs IH]; intros t Hnd Hnew; simpl.
  - by rewrite app_nil_r.
  - apply NoDup_cons in Hnd as [Hf Hnd].
    assert (Hft : f ∉ Listeners.get t name) by (apply Hnew; by left).
    unfold register_all in *. rewrite IH; [|done|].
    + rewrite get_on_message_new by done. by rewrite <- app_assoc.
    + intros g Hg. rewrite get_on_message_new by done.
      intros [Hgt|Hgf%list_elem_of_singleton]%elem_of_app.
      * by apply (Hnew g); [right|].
      * by subst.
Qed.

Lemma get_register_all_other name name' fs (t : gmap string (list fn)) :
  name <> name' ->
  Listeners.get (register_all name fs t) name' = Listeners.get t name'.
Proof.
  intros Hne. revert t. induction fs as [|f fs IH]; intros t; simpl; [done|].
  unfold register_all in *. rewrite IH. by apply on_message_other.
Qed.



(** ** Mission download *)

Lemma run_app es1 es2 s :
  run (es1 ++ es2) s = and_then (run es1 s) (run es2).
Proof.
  revert s. induction es1 as [|e es1 IH]; intros s; simpl; [done|].
  destruct (step e s); [apply IH|done].
Qed.

Lemma mission_out_rerequest sys comp l i c :
  List.filter mission_out (rerequest sys comp i c l) = [].
Proof.
  revert i c. induction l as [|v l IH]; intros i c; simpl; [done|].
  destruct (unknown v); simpl; [|apply IH].
  destruct (50 <? c + 1); [done|apply IH].
Qed.

Lemma mission_view_eq a b :
  mission_view a = mission_view b ->
  wploader a = wploader b /\ wp_loaded a = wp_loaded b
  /\ wp_uploaded a = wp_uploaded b /\ target_system a = target_system b
  /\ target_component a = target_component b
  /\ List.filter mission_out (sent a) = List.filter mission_out (sent b).
Proof. unfold mission_view. by intros [= -> -> -> -> -> ->]. Qed.

(** The watchdog sends parameter requests and touches nothing of the
    mission side. *)
Lemma mission_view_watchdog t t' s :
  mission_view (watchdog t t' s) = mission_view s.
Proof.
  unfold watchdog. destruct (start (params s)); [|done].
  destruct (negb (has_unknown (mav_param_set (params s))));
    cbn beta iota; cbn [loaded params set_params set_loaded];
    match goal with |- context [if ?b then _ else _] => destruct b end;
    try done;
    unfold mission_view; cbn;
    by rewrite List.filter_app, mission_out_rerequest, app_nil_r.
Qed.

Lemma mission_view_param_value_rx t m s :
  mission_view (param_value_rx t m s) = mission_view s.
Proof.
  destruct m; simpl; try done.
  destruct (decide _); destruct (_ <? _); simpl; try done;
    destruct (_ !! _) as [[?|]|]; done.
Qed.

(** A step the mission side does not answer: the watchdog, a count or an
    item while no download is open, a request while no upload is, or a
    message of another kind. *)
Lemma beside_step e s :
  match e with
  | Tick _ _ => True
  | Recv _ m =>
      (wp_loaded s = true \/ (is_count m = false /\ is_item m = false))
      /\ (wp_uploaded s = None \/ is_request m = false)
  | _ => False
  end ->
  exists s', step e s = Returned s' /\ mission_view s' = mission_view s.
Proof.
  destruct e as [t t'|t m| | |]; try done.
  - intros _. eexists. split; [reflexivity|]. apply mission_view_watchdog.
  - intros [Hdown Hup]. cbn [step]. unfold handle.
    pose proof (mission_view_param_value_rx t m s) as H1.
    set (s1 := param_value_rx t m s) in *. clearbody s1.
    pose proof (mission_view_eq _ _ H1) as (_ & Hl & Hu & _).
    assert (H2 : waypoint_rx m s1 = Returned s1).
    { unfold waypoint_rx. rewrite Hl.
      destruct (wp_loaded s); [done|].
      destruct Hdown as [|[Hc Hi]]; [done|]. by destruct m. }
    rewrite H2. cbn [and_then].
    assert (H3 : mission_view (waypoint_current_rx m s1) = mission_view s1)
      by (by destruct m).
    set (s3 := waypoint_current_rx m s1) in *. clearbody s3.
    pose proof (mission_view_eq _ _ H3) as (_ & _ & Hu3 & _).
    assert (H4 : waypoint_request_rx m s3 = Returned s3).
    { unfold waypoint_request_rx. rewrite Hu3, Hu.
      destruct Hup as [-> | Hr]; [by destruct m|].
      destruct (wp_uploaded s); by destruct m. }
    rewrite H4. cbn [and_then]. eexists. split; [reflexivity|].
    rewrite <- H1, <- H3. by destruct m.
Qed.

Lemma beside_download_step e s :
  beside_download e ->
  wp_uploaded s = None ->
  exists s', step e s = Returned s' /\ mission_view s' = mission_view s.
Proof.
  intros He Hu. apply beside_step.
  destruct e as [t t'|t m| | |]; try done. split; [by right|by left].
Qed.

Lemma beside_upload_step e s :
  beside_upload e ->
  wp_loaded s = true ->
  exists s', step e s = Returned s' /\ mission_view s' = mission_view s.
Proof.
  intros He Hl. apply beside_step.
  destruct e as [t t'|t m| | |]; try done. split; [by left|by right].
Qed.

Lemma beside_download_run es s :
  Forall beside_download es ->
  wp_uploaded s = None ->
  exists s', run es s = Returned s' /\ mission_view s' = mission_view s.
Proof.
  intros Hes. revert s. induction Hes as [|e es He Hes IH]; intros s Hu.
  - by exists s.
  - destruct (beside_download_step e s He Hu) as (s1 & Hstep & Hv1).
    pose proof (mission_view_eq _ _ Hv1) as (_ & _ & Hu1 & _).
    destruct (IH s1) as (s' & Hrun & Hv'); [congruence|].
    exists s'. cbn [run]. rewrite Hstep. split; [done|congruence].
Qed.

(** An item that is not the one awaited, or that arrives while no
    download is open, is dropped. *)
Lemma stray_item e w s :
  is_item_of e w ->
  wp_loaded s = true \/ wp_seq w <> count (wploader s) ->
  step e s = Returned s.
Proof.
  intros (t & He) Hs.
  assert (Hm : exists m, e = Recv t m
                         /\ (m = MISSION_ITEM w \/ m = WAYPOINT w)).
  { destruct He as [-> | ->]; eexists; split; eauto. }
  destruct Hm as (m & -> & Hm). rewrite (step_item t w m s Hm).
  destruct (wp_loaded s) eqn:Hl.
  - unfold waypoint_rx. by rewrite Hl.
  - destruct Hs as [|Hne]; [done|].
    rewrite (waypoint_rx_item w m s Hm Hl).
    destruct (count (wploader s) <? wp_seq w) eqn:H1; [done|].
    destruct (wp_seq w <? count (wploader s)) eqn:H2; [done|].
    apply Nat.ltb_ge in H1, H2. lia.
Qed.

(** The items that complete a download, received in order, with whatever
    else arrives between them. *)
Lemma download_items n es rest :
  downloads n es rest ->
  forall s,
    wp_uploaded s = None ->
    count (wploader s) = n ->
    expected_count (wploader s) = Some (n + length rest) ->
    wp_loaded s = match rest with [] => true | _ => false end ->
    exists s',
      run es s = Returned s'
      /\ wpoints (wploader s') = wpoints (wploader s) ++ rest
      /\ wp_loaded s' = true
      /\ List.filter mission_out (sent s')
         = List.filter mission_out (sent s)
           ++ map waypoint_request_send (seq (S n) (length rest - 1))
      /\ wp_uploaded s' = None.
Proof.
  induction 1 as [n|n e es ws He Hes IH|n e w es ws He Hne Hes IH
                  |n e w es ws He Hseq Hes IH];
    intros s Hu Hn Hexp Hl.
  - exists s. simpl. by rewrite !app_nil_r.
  - destruct (beside_download_step e s He Hu) as (s1 & Hstep & Hv1).
    apply mission_view_eq in Hv1 as (Hw1 & Hl1 & Hu1 & _ & _ & Hsent1).
    destruct (IH s1) as (s' & Hrun & Hw & Hl' & Hsent & Hu');
      try congruence.
    exists s'. cbn [run]. rewrite Hstep.
    split_and!; try done; congruence.
  - rewrite <- Hn in Hne.
    pose proof (stray_item e w s He (or_intror Hne)) as Hstep.
    destruct (IH s) as (s' & Hrun & Hw & Hl' & Hsent & Hu'); try done.
    exists s'. cbn [run]. by rewrite Hstep.
  - destruct He as (t & He).
    assert (Hm : exists m, e = Recv t m
                           /\ (m = MISSION_ITEM w \/ m = WAYPOINT w)).
    { destruct He as [-> | ->]; eexists; split; eauto. }
    destruct Hm as (m & -> & Hm). cbn [run].
    rewrite (step_item t w m s Hm), (waypoint_rx_item w m s Hm Hl), Hexp.
    rewrite Hseq, <- Hn, Nat.ltb_irrefl. cbn [length].
    destruct ws as [|w' ws].
    + rewrite (proj2 (Nat.ltb_ge _ _)) by (simpl; lia).
      destruct (IH (set_wp_loaded true
                      (set_wploader (add w (wploader s)) s)))
        as (s' & Hrun & Hw & Hl' & Hsent & Hu'); try done.
      * unfold count in *. simpl. rewrite length_app. simpl. lia.
      * simpl. rewrite Hexp. f_equal. simpl. lia.
      * exists s'. split; [exact Hrun|]. simpl in Hw, Hsent.
        rewrite app_nil_r in *. by split_and!.
    + rewrite (proj2 (Nat.ltb_lt _ _)) by (simpl; lia).
      destruct (IH (send [waypoint_request_send (count (wploader s) + 1)]
                      (set_wploader (add w (wploader s)) s)))
        as (s' & Hrun & Hw & Hl' & Hsent & Hu'); try done.
      * unfold count in *. simpl. rewrite length_app. simpl. lia.
      * simpl. rewrite Hexp. f_equal. simpl. lia.
      * exists s'. split; [exact Hrun|]. simpl in Hw, Hsent.
        rewrite <- app_assoc in Hw. split_and!; try done.
        rewrite Hsent, List.filter_app. simpl.
        rewrite <- app_assoc. simpl. rewrite Nat.sub_0_r, Hn.
        by replace (n + 1) with (S n) by lia.
Qed.



Lemma wp_loaded_param_value_rx t m s :
  wp_loaded (param_value_rx t m s) = wp_loaded s.
Proof.
  destruct m; simpl; try done.
  destruct (decide _); destruct (_ <? _); simpl; try done;
    destruct (_ !! _) as [[?|]|]; done.
Qed.

Lemma wp_loaded_watchdog t t' s : wp_loaded (watchdog t t' s) = wp_loaded s.
Proof.
  unfold watchdog. destruct (start (params s)); [|done].
  destruct (negb (has_unknown (mav_param_set (params s)))); simpl;
    try match goal with |- context [if ?b then _ else _] => destruct b end;
    done.
Qed.

(** The stages after [waypoint_rx] leave [wp_loaded] alone. *)
Lemma wp_loaded_handle t m s :
  wp_loaded (state_of (handle t m s))
  = wp_loaded (state_of (waypoint_rx m (param_value_rx t m s))).
Proof.
  unfold handle.
  destruct (waypoint_rx m (param_value_rx t m s)) as [s2|x s2]; [|done].
  cbn [and_then state_of].
  assert (H3 : wp_loaded (waypoint_current_rx m s2) = wp_loaded s2)
    by (by destruct m).
  set (s3 := waypoint_current_rx m s2) in *. clearbody s3.
  rewrite <- H3. unfold waypoint_request_rx.
  repeat case_match; simpl; try done; by destruct m.
Qed.

Lemma download_ends_step e s :
  wp_loaded s = false ->
  wp_loaded (state_of (step e s)) = true ->
  exists w, is_item_of e w
            /\ wp_seq w = count (wploader s)
            /\ exists expected,
                 expected_count (wploader s) = Some expected
                 /\ expected <= wp_seq w + 1.
Proof.
  intros Hnl Hl. destruct e as [t t'|t m| | |]; simpl in Hl.
  - rewrite wp_loaded_watchdog in Hl. congruence.
  - rewrite wp_loaded_handle in Hl.
    pose proof (wp_loaded_param_value_rx t m s) as Hl1.
    pose proof (wploader_param_value_rx t m s) as Hw1.
    set (s1 := param_value_rx t m s) in *. clearbody s1.
    rewrite Hnl in Hl1.
    assert (Hitem : forall w,
               m = MISSION_ITEM w \/ m = WAYPOINT w ->
               exists w0, is_item_of (Recv t m) w0
                          /\ wp_seq w0 = count (wploader s)
                          /\ exists expected,
                               expected_count (wploader s) = Some expected
                               /\ expected <= wp_seq w0 + 1).
    { intros w Hm. exists w.
      split; [exists t; destruct Hm as [-> | ->]; [by left|by right]|].
      rewrite (waypoint_rx_item w m s1 Hm Hl1), Hw1 in Hl.
      destruct (count (wploader s) <? wp_seq w) eqn:H1;
        [simpl in Hl; congruence|].
      destruct (wp_seq w <? count (wploader s)) eqn:H2;
        [simpl in Hl; congruence|].
      apply Nat.ltb_ge in H1, H2. split; [lia|].
      destruct (expected_count (wploader s)) as [expected|];
        [|simpl in Hl; congruence].
      exists expected. split; [done|].
      destruct (wp_seq w + 1 <? expected) eqn:H3.
      - simpl in Hl. congruence.
      - by apply Nat.ltb_ge in H3. }
    destruct m as [? ? ?|? ? ? ?|?|?|w|w|?|?|?|?|? ? ?|?|?];
      try (unfold waypoint_rx in Hl; rewrite Hl1 in Hl; simpl in Hl;
           congruence).
    + apply (Hitem w). by left.
    + apply (Hitem w). by right.
  - done.
  - unfold send_all_waypoints_begin in Hl. simpl in Hl.
    destruct (0 <? _) in Hl; simpl in Hl; congruence.
  - unfold send_all_waypoints_end in Hl.
    destruct (wp_uploaded s); [destruct (existsb negb _)|]; simpl in Hl;
      congruence.
Qed.

(** X6.  A download ends only on an item: [wp_loaded] goes from false to
    true only when the item received has the [seq] that is the number of
    items held, with [seq + 1 >= expected_count], a count message having
    set [expected_count].  A count message never ends it, a count of 0
    included: item 0 is requested all the same, and the download stays
    open for as long as no item arrives. *)
Theorem download_ends_on_item :
  (forall (e : event) (s : Link),
      wp_loaded s = false ->
      wp_loaded (state_of (step e s)) = true ->
      exists w, is_item_of e w
                /\ wp_seq w = count (wploader s)
                /\ exists expected,
                     expected_count (wploader s) = Some expected
                     /\ expected <= wp_seq w + 1)
  /\ (forall (t : Q) (c : message) (s : Link),
      c = MISSION_COUNT 0 \/ c = WAYPOINT_COUNT 0 ->
      wp_loaded s = false ->
      exists s', step (Recv t c) s = Returned s'
                 /\ wp_loaded s' = false
                 /\ wpoints (wploader s') = []
                 /\ sent s' = sent s ++ [waypoint_request_send 0])
  /\ (forall (es : list event) (s : Link),
      (forall e w, e ∈ es -> ~ is_item_of e w) ->
      wp_loaded s = false ->
      wp_loaded (state_of (run es s)) = false).
Proof.
  split_and!.
  - apply download_ends_step.
  - intros t c s Hc Hnl. rewrite (step_count t 0 c s Hc).
    unfold waypoint_rx. rewrite Hnl.
    destruct Hc as [-> | ->]; eexists; (split; [reflexivity|done]).
  - intros es. induction es as [|e es IH]; intros s Hes Hnl; [done|].
    rewrite state_of_run_cons.
    assert (Hstep : wp_loaded (state_of (step e s)) = false).
    { destruct (wp_loaded (state_of (step e s))) eqn:Hl; [|done].
      destruct (download_ends_step e s Hnl Hl) as (w & Hw & _).
      destruct (Hes e w); [by left|done]. }
    destruct (step e s) as [s'|x s']; simpl in Hstep; [|done].
    apply IH; [|done]. intros e' w He'. apply Hes. by right.
Qed.

Lemma download_ends_on_item_witness :
  wp_loaded
    (state_of (run [Fetch; Recv 0 (MISSION_COUNT 0); Tick 1 1;
                    Recv 2 (HEARTBEAT 0 0 0)] (initial 0 1 1))) = false
  /\ exists w, is_item_of (Recv 0 (MISSION_ITEM (item 1))) w
               /\ wp_seq w = count (wploader downloading)
               /\ exists expected,
                    expected_count (wploader downloading) = Some expected
                    /\ expected <= wp_seq w + 1.
Proof.
  destruct download_ends_on_item as (Hend & _ & Hopen).
  split.
  - apply (Hopen [Recv 0 (MISSION_COUNT 0); Tick 1 1;
                  Recv 2 (HEARTBEAT 0 0 0)] (fetch (initial 0 1 1)));
      [|reflexivity].
    intros e w He (t & [-> | ->]);
      repeat (apply elem_of_cons in He as [He|He]; [discriminate He|]);
      by apply elem_of_nil in He.
  - apply Hend; reflexivity.
Defined.

(** ** The local mission while no download is open *)

Lemma untargeted_retarget sys comp w :
  untargeted (retarget sys comp w) = untargeted w.
Proof. done. Qed.

Lemma untargeted_insert (l : list waypoint) (i : nat) w sys comp :
  l !! i = Some w ->
  untargeted <$> <[i := retarget sys comp w]> l = untargeted <$> l.
Proof.
  intros Hi. rewrite list_fmap_insert, untargeted_retarget.
  apply list_insert_id. by rewrite list_lookup_fmap, Hi.
Qed.

Lemma mission_kept_step e s :
  e <> Fetch ->
  wp_loaded s = true ->
  wp_loaded (state_of (step e s)) = true
  /\ untargeted <$> wpoints (wploader (state_of (step e s)))
     = untargeted <$> wpoints (wploader s)
  /\ expected_count (wploader (state_of (step e s)))
     = expected_count (wploader s).
Proof.
  intros Hne Hl. destruct e as [t t'|t m| | |]; simpl.
  - by rewrite wp_loaded_watchdog, wploader_watchdog.
  - pose proof (wploader_param_value_rx t m s) as Hw.
    pose proof (wp_loaded_param_value_rx t m s) as Hl1.
    unfold handle.
    set (s1 := param_value_rx t m s) in *. clearbody s1.
    rewrite Hl in Hl1.
    assert (H2 : waypoint_rx m s1 = Returned s1)
      by (unfold waypoint_rx; by rewrite Hl1).
    rewrite H2. cbn [and_then]. rewrite <- Hw.
    assert (H3 : wploader (waypoint_current_rx m s1) = wploader s1
                 /\ wp_loaded (waypoint_current_rx m s1) = true)
      by (by destruct m).
    destruct H3 as [H3 H3l].
    set (s3 := waypoint_current_rx m s1) in *. clearbody s3.
    rewrite <- H3. unfold waypoint_request_rx, wp.
    destruct (wp_uploaded s3) as [acked|]; [|by destruct m].
    destruct m; simpl; try done.
    all: destruct (wpoints (wploader s3) !! seq) as [w|] eqn:Hseq;
      [|done];
      destruct (seq <? length acked); simpl;
      by rewrite untargeted_insert.
  - done.
  - unfold send_all_waypoints_begin. simpl. by destruct (0 <? _).
  - unfold send_all_waypoints_end. destruct (wp_uploaded s); [|done].
    by destruct (existsb negb _).
Qed.

(** X7.  Unless [fetch()] is called, the thread and the upload never add,
    drop or reorder an item of the local mission: whatever is received,
    [wp_loaded] stays set, [expected_count] stays, and the items stay the
    same up to their target ids. *)
Theorem mission_kept_without_fetch (es : list event) (s : Link) :
  Fetch ∉ es ->
  wp_loaded s = true ->
  wp_loaded (state_of (run es s)) = true
  /\ untargeted <$> wpoints (wploader (state_of (run es s)))
     = untargeted <$> wpoints (wploader s)
  /\ expected_count (wploader (state_of (run es s)))
     = expected_count (wploader s).
Proof.
  revert s. induction es as [|e es IH]; intros s Hes Hl; [done|].
  apply not_elem_of_cons in Hes as [Hne Hes].
  rewrite state_of_run_cons.
  destruct (mission_kept_step e s) as (Hl' & Hw & Hx); [done|done|].
  destruct (step e s) as [s'|x s']; simpl in *; [|done].
  destruct (IH s' Hes Hl') as (? & ? & ?). split_and!; congruence.
Qed.

Lemma mission_kept_without_fetch_witness :
  wpoints
    (wploader
       (state_of (run [Recv 0 (MISSION_COUNT 7);
                       Recv 0 (MISSION_ITEM (item 2)); Tick 1 1]
                    (set_wp_loaded true downloading))))
  = [item 0].
Proof.
  destruct (mission_kept_without_fetch
              [Recv 0 (MISSION_COUNT 7); Recv 0 (MISSION_ITEM (item 2));
               Tick 1 1] (set_wp_loaded true downloading))
    as (_ & Hw & _).
  - intros He.
    repeat (apply elem_of_cons in He as [He|He]; [discriminate He|]).
    by apply elem_of_nil in He.
  - reflexivity.
  - reflexivity.
Defined.

(** ** Mission upload *)

Lemma step_request t i m s :
  m = MISSION_REQUEST i \/ m = WAYPOINT_REQUEST i ->
  step (Recv t m) s = waypoint_request_rx m s.
Proof.
  intros Hm. simpl. unfold handle.
  assert (H1 : waypoint_rx m (param_value_rx t m s) = Returned s).
  { unfold waypoint_rx. destruct Hm as [-> | ->]; simpl;
      by destruct (wp_loaded s). }
  rewrite H1. cbn [and_then].
  assert (H2 : waypoint_current_rx m s = s)
    by (by destruct Hm as [-> | ->]).
  rewrite H2.
  assert (H3 : forall s', heartbeat_rx t m s' = s')
    by (intros s'; by destruct Hm as [-> | ->]).
  destruct (waypoint_request_rx m s); simpl; by rewrite ?H3.
Qed.

Lemma retarget_idem sys comp w :
  retarget sys comp (retarget sys comp w) = retarget sys comp w.
Proof. done. Qed.

Lemma retarget_insert (l : list waypoint) (i : nat) w sys comp :
  l !! i = Some w ->
  retarget sys comp <$> <[i := retarget sys comp w]> l
  = retarget sys comp <$> l.
Proof.
  intros Hi. rewrite list_fmap_insert, retarget_idem.
  apply list_insert_id. by rewrite list_lookup_fmap, Hi.
Qed.

(** Requests for items the loader holds, during an upload, with whatever
    else arrives between them. *)
Lemma upload_requests es reqs :
  uploads es reqs ->
  forall s acked,
    wp_loaded s = true ->
    wp_uploaded s = Some acked ->
    length acked = length (wpoints (wploader s)) ->
    Forall (fun i => i < length acked) reqs ->
    exists s',
      run es s = Returned s'
      /\ wp_uploaded s'
         = Some (foldl (fun a i => <[i := true]> a) acked reqs)
      /\ retarget (target_system s) (target_component s)
           <$> wpoints (wploader s')
         = retarget (target_system s) (target_component s)
             <$> wpoints (wploader s)
      /\ List.filter mission_out (sent s')
         = List.filter mission_out (sent s)
           ++ (mav_send
                 <$> omap (fun i =>
                             (retarget (target_system s) (target_component s)
                                <$> wpoints (wploader s)) !! i) reqs)
      /\ wp_loaded s' = true.
Proof.
  induction 1 as [|e es reqs He Hes IH|e i es reqs (t & He) Hes IH];
    intros s acked Hl Hup Hlen Hreqs.
  - exists s. simpl. by rewrite app_nil_r.
  - destruct (beside_upload_step e s He Hl) as (s1 & Hstep & Hv1).
    apply mission_view_eq in Hv1 as (Hw1 & Hl1 & Hu1 & Hts & Htc & Hsent1).
    destruct (IH s1 acked) as (s' & Hrun & Hup' & Hw' & Hsent & Hl');
      try congruence.
    exists s'. cbn [run]. rewrite Hstep.
    rewrite Hts, Htc, Hw1, Hsent1 in *. by split_and!.
  - apply Forall_cons in Hreqs as [Hi Hreqs].
    assert (Hm : exists m, e = Recv t m
                           /\ (m = MISSION_REQUEST i
                               \/ m = WAYPOINT_REQUEST i)).
    { destruct He as [-> | ->]; eexists; split; eauto. }
    destruct Hm as (m & -> & Hm).
    destruct (lookup_lt_is_Some_2 (wpoints (wploader s)) i) as [w Hw];
      [lia|].
    cbn [run]. rewrite (step_request t i m s Hm).
    set (sys := target_system s). set (comp := target_component s).
    set (s1 := set_wp_uploaded (Some (<[i := true]> acked))
                 (send [mav_send (retarget sys comp w)]
                    (set_wploader
                       {| wpoints := <[i := retarget sys comp w]>
                                       (wpoints (wploader s));
                          expected_count := expected_count (wploader s) |}
                       s))).
    assert (Hrx : waypoint_request_rx m s = Returned s1).
    { unfold waypoint_request_rx, wp. rewrite Hup.
      destruct Hm as [-> | ->]; rewrite Hw;
        by rewrite (proj2 (Nat.ltb_lt _ _) Hi). }
    rewrite Hrx.
    destruct (IH s1 (<[i := true]> acked))
      as (s' & Hrun & Hup' & Hw' & Hsent & Hl').
    + done.
    + done.
    + simpl. by rewrite !length_insert.
    + by rewrite length_insert.
    + exists s'. split; [exact Hrun|]. simpl in *.
      fold sys comp in Hw', Hsent.
      rewrite (retarget_insert _ i w sys comp Hw) in Hw', Hsent.
      split_and!; try done.
      rewrite Hsent, List.filter_app, list_lookup_fmap, Hw. simpl.
      by rewrite <- app_assoc.
Qed.

Lemma existsb_negb_false (l : list bool) :
  existsb negb l = false <-> forall j, j < length l -> l !! j = Some true.
Proof.
  induction l as [|b l IH]; simpl.
  - split; [intros _ j Hj; lia|done].
  - rewrite orb_false_iff, IH. split.
    + intros [Hb Hl] [|j] Hj; simpl.
      * by destruct b.
      * apply Hl. lia.
    + intros Hall. split.
      * specialize (Hall 0 ltac:(lia)). simpl in Hall. by injection Hall as ->.
      * intros j Hj. apply (Hall (S j)). lia.
Qed.

Lemma acked_length reqs (a : list bool) :
  length (foldl (fun a i => <[i := true]> a) a reqs) = length a.
Proof.
  revert a. induction reqs as [|i reqs IH]; intros a; simpl; [done|].
  by rewrite IH, length_insert.
Qed.

Lemma acked_lookup reqs (a : list bool) j :
  foldl (fun a i => <[i := true]> a) a reqs !! j
  = if decide (j ∈ reqs /\ j < length a) then Some true else a !! j.
Proof.
  revert a. induction reqs as [|i reqs IH]; intros a.
  - cbn [foldl]. destruct (decide _) as [[Hin _]|_]; [|done].
    by apply elem_of_nil in Hin.
  - cbn [foldl]. rewrite IH, length_insert.
    destruct (decide (j ∈ reqs /\ j < length a)) as [[Hin Hlt]|Hno];
      destruct (decide (j ∈ i :: reqs /\ j < length a)) as [[Hin' Hlt']|Hno'].
    + done.
    + destruct Hno'. split; [by right|done].
    + apply elem_of_cons in Hin' as [->|Hin']; [|destruct Hno; by split].
      by rewrite list_lookup_insert_eq.
    + destruct (decide (i = j)) as [->|Hne].
      * rewrite list_insert_ge; [done|].
        destruct (decide (j < length a)); [|lia].
        destruct Hno'. split; [by left|done].
      * by rewrite list_lookup_insert_ne.
Qed.



(** X9.  A request for an item outside the mission during an upload (the
    loader's [wp()] being taken to return [None] for it, as the codec
    library has it) raises [AttributeError] on line 521, before anything
    is sent or marked; nothing catches it, so the thread ends on that
    message without entering any listener.  With no upload in progress a
    request changes nothing. *)
Theorem request_out_of_range {W} (code : behaviour W) (t : Q) (i : nat)
    (m : message) (es : list event) (k : Thread.Worker W) :
  m = MISSION_REQUEST i \/ m = WAYPOINT_REQUEST i ->
  (is_Some (wp_uploaded (Thread.link k)) ->
   count (wploader (Thread.link k)) <= i ->
   step (Recv t m) (Thread.link k) = Raised AttributeError (Thread.link k)
   /\ Thread.mavlink_thread code (Recv t m :: es) k
      = (if Thread.exiting k then Thread.Ended
         else Thread.Died AttributeError) k)
  /\ (wp_uploaded (Thread.link k) = None ->
      step (Recv t m) (Thread.link k) = Returned (Thread.link k)).
Proof.
  intros Hm. rewrite (step_request t i m _ Hm). split.
  - intros [acked Hup] Hi.
    assert (Hrx : waypoint_request_rx m (Thread.link k)
                  = Raised AttributeError (Thread.link k)).
    { unfold count in Hi.
      destruct Hm as [-> | ->]; unfold waypoint_request_rx, wp; rewrite Hup;
        by rewrite (lookup_ge_None_2 (wpoints (wploader (Thread.link k))) i). }
    split; [exact Hrx|].
    unfold Thread.mavlink_thread. cbn [Thread.loop Thread.wstep].
    unfold Thread.recv_one.
    change (handle t m (Thread.link k)) with (step (Recv t m) (Thread.link k)).
    rewrite (step_request t i m _ Hm), Hrx. simpl.
    by destruct k as [l tb hk [|] w].
  - intros Hup. unfold waypoint_request_rx. rewrite Hup.
    by destruct Hm as [-> | ->].
Qed.

Lemma request_out_of_range_witness :
  step (Recv 0 (MISSION_REQUEST 2))
    (state_of (run [Upload_begin] two_items))
  = Raised AttributeError (state_of (run [Upload_begin] two_items))
  /\ step (Recv 0 (MISSION_REQUEST 2)) two_items = Returned two_items.
Proof.
  split.
  - apply (request_out_of_range quiet 0 2 (MISSION_REQUEST 2) []
             (Thread.mkWorker (state_of (run [Upload_begin] two_items))
                ∅ None false ([], tt))).
    + by left.
    + by eexists.
    + vm_compute. lia.
  - apply (request_out_of_range quiet 0 2 (MISSION_REQUEST 2) []
             (Thread.mkWorker two_items ∅ None false ([], tt))).
    + by left.
    + reflexivity.
Defined.

(** ** Parameter synchronisation *)

Lemma param_view_eq a b :
  param_view a = param_view b ->
  params a = params b /\ mav_param a = mav_param b
  /\ last_new_param a = last_new_param b /\ duration a = duration b.
Proof. unfold param_view. by intros [= -> -> -> ->]. Qed.

(** What one [PARAM_VALUE] does to the parameter side, the slot list
    being as long as the count. *)
Lemma param_value_step t id v i c s :
  params_shape s ->
  exists s',
    step (Recv t (PARAM_VALUE id v i c)) s = Returned s'
    /\ mav_param_count (params s') = Z.of_nat c
    /\ start (params s')
       = (if decide (mav_param_count (params s) ≠ Z.of_nat c)
          then true else start (params s))
    /\ loaded (params s')
       = (if decide (mav_param_count (params s) ≠ Z.of_nat c)
          then false else loaded (params s))
    /\ mav_param_set (params s')
       = (if i <? c
          then <[i := Some (PARAM_VALUE id v i c)]>
                 (if decide (mav_param_count (params s) ≠ Z.of_nat c)
                  then replicate c None else mav_param_set (params s))
          else if decide (mav_param_count (params s) ≠ Z.of_nat c)
               then replicate c None else mav_param_set (params s))
    /\ mav_param s' = <[id := v]> (mav_param s).
Proof.
  intros Hs.
  pose proof (handle_param_view t (PARAM_VALUE id v i c) s) as Hv.
  pose proof (mav_param_param_value_rx t id v i c s Hs) as Hm.
  assert (Hret : exists s', handle t (PARAM_VALUE id v i c) s = Returned s').
  { destruct (beside_step (Recv t (PARAM_VALUE id v i c)) s)
      as (s' & Hs' & _); [by split; right|]. by exists s'. }
  destruct Hret as [s' Hs']. exists s'. split; [exact Hs'|].
  rewrite Hs' in Hv. cbn [state_of] in Hv.
  apply param_view_eq in Hv as (Hp & Hmp & _ & _).
  rewrite Hp, Hmp, Hm. clear Hp Hmp Hm Hs'.
  unfold params_shape in Hs. simpl.
  destruct (decide (mav_param_count (params s) ≠ Z.of_nat c)) as [Hne|Heq];
    simpl.
  - destruct (i <? c) eqn:Hic; simpl; [|done].
    apply Nat.ltb_lt in Hic.
    by rewrite (lookup_replicate_2 c None i Hic).
  - apply dec_stable in Heq. rewrite Heq, Nat2Z.id in Hs.
    destruct (i <? c) eqn:Hic; simpl; [|done].
    apply Nat.ltb_lt in Hic.
    destruct (lookup_lt_is_Some_2 (mav_param_set (params s)) i)
      as [slot Hslot]; [lia|].
    rewrite Hslot. by destruct slot.
Qed.

Lemma mav_param_kept e s key :
  is_Some (mav_param s !! key) ->
  is_Some (mav_param (state_of (step e s)) !! key).
Proof.
  intros Hk. destruct e as [t t'|t m| | |].
  - simpl. unfold watchdog. by repeat case_match.
  - pose proof (handle_param_view t m s) as Hv.
    injection Hv as _ Hm _ _. simpl. rewrite Hm.
    destruct m; simpl; try done.
    assert (Hins : is_Some (<[param_id := param_value]> (mav_param s)
                              !! key)).
    { rewrite lookup_insert. by destruct (decide (param_id = key)). }
    destruct (decide _); destruct (param_index <? param_count); simpl;
      try done;
      match goal with |- context [?l !! param_index] =>
        destruct (l !! param_index) as [[?|]|] end; done.
  - done.
  - pose proof (user_param_view Upload_begin s I) as Hv.
    injection Hv as _ Hm _ _. simpl in *. by rewrite Hm.
  - pose proof (user_param_view Upload_end s I) as Hv.
    injection Hv as _ Hm _ _. simpl in *. by rewrite Hm.
Qed.

(** X10.  The keyed mapping never loses a name: an entry present before a
    run is present after it, whatever is received, a new parameter set
    included. *)
Theorem mav_param_never_forgets (es : list event) (s : Link)
    (key : string) :
  is_Some (mav_param s !! key) ->
  is_Some (mav_param (state_of (run es s)) !! key).
Proof.
  revert s. induction es as [|e es IH]; intros s Hk; [done|].
  rewrite state_of_run_cons.
  pose proof (mav_param_kept e s key Hk) as Hk'.
  destruct (step e s) as [s'|x s']; simpl in Hk'; [by apply IH|done].
Qed.

Lemma mav_param_never_forgets_witness :
  is_Some
    (mav_param
       (state_of (run [Recv 1 (PARAM_VALUE "WPNAV_SPEED" 500 0 7)]
                    (state_of (run three_values (initial 0 1 1)))))
     !! "RTL_ALT").
Proof.
  apply mav_param_never_forgets. by eexists.
Defined.

Lemma params_inv_view a b :
  param_view a = param_view b -> params_inv b -> params_inv a.
Proof.
  intros (Hp & Hm & _ & _)%param_view_eq.
  unfold params_inv, params_shape. by rewrite Hp, Hm.
Qed.

Lemma watchdog_keeps t t' s :
  mav_param_count (params (watchdog t t' s)) = mav_param_count (params s)
  /\ mav_param_set (params (watchdog t t' s)) = mav_param_set (params s)
  /\ start (params (watchdog t t' s)) = start (params s)
  /\ mav_param (watchdog t t' s) = mav_param s.
Proof.
  rewrite params_watchdog. split_and!; try by destruct (_ && _).
  unfold watchdog. by repeat case_match.
Qed.

Lemma params_inv_step e s : params_inv s -> params_inv (state_of (step e s)).
Proof.
  intros Hinv. destruct e as [t t'|t m| | |].
  - destruct Hinv as (Hs & Hc & Hslots).
    destruct (watchdog_keeps t t' s) as (Hc' & Hset & Hst & Hm).
    unfold params_inv, params_shape. simpl.
    by rewrite Hc', Hset, Hst, Hm.
  - destruct m;
      try (eapply params_inv_view; [apply handle_param_view|exact Hinv]).
    destruct Hinv as (Hs & Hc & Hslots).
    destruct (param_value_step t param_id param_value param_index
                param_count s Hs)
      as (s' & Hstep & Hc' & Hst' & _ & Hset' & Hm').
    pose proof (params_shape_step
                  (Recv t (PARAM_VALUE param_id param_value param_index
                             param_count)) s Hs) as Hs'.
    rewrite Hstep in *. cbn [state_of] in *.
    split; [exact Hs'|]. split.
    + right. split; [lia|]. rewrite Hst'.
      destruct (decide _) as [Hne|Heq]; [done|].
      apply dec_stable in Heq. destruct Hc as [Hc|[_ Hc]]; [lia|done].
    + intros j m Hj. rewrite Hc', Nat2Z.id. rewrite Hset' in Hj.
      assert (Hbase : forall j m,
                 (if decide (mav_param_count (params s)
                             ≠ Z.of_nat param_count)
                  then replicate param_count None
                  else mav_param_set (params s)) !! j = Some (Some m) ->
                 exists id v, m = PARAM_VALUE id v j param_count
                              /\ is_Some (mav_param s' !! id)).
      { intros j' m' Hj'. destruct (decide _) as [Hne|Heq].
        - by apply lookup_replicate in Hj' as [[=] _].
        - apply dec_stable in Heq.
          destruct (Hslots j' m' Hj') as (id & v & -> & Hid).
          exists id, v. rewrite Heq, Nat2Z.id. split; [done|].
          rewrite Hm', lookup_insert. by destruct (decide _). }
      destruct (param_index <? param_count); [|by apply Hbase].
      destruct (decide (param_index = j)) as [->|Hne].
      * destruct (decide
                    (j < length
                           (if decide (mav_param_count (params s)
                                       ≠ Z.of_nat param_count)
                            then replicate param_count None
                            else mav_param_set (params s)))) as [Hlt|Hge].
        -- rewrite list_lookup_insert_eq in Hj by done.
           injection Hj as <-. exists param_id, param_value.
           split; [done|]. by rewrite Hm', lookup_insert_eq.
        -- rewrite list_insert_ge in Hj by lia. by apply Hbase.
      * rewrite list_lookup_insert_ne in Hj by done. by apply Hbase.
  - exact Hinv.
  - eapply params_inv_view; [apply (user_param_view Upload_begin s I)|done].
  - eapply params_inv_view; [apply (user_param_view Upload_end s I)|done].
Qed.

Lemma params_inv_initial t0 sys comp : params_inv (initial t0 sys comp).
Proof.
  split_and!; [done|by left|]. intros i m Hi. simpl in Hi.
  by rewrite lookup_nil in Hi.
Qed.

(** X11.  In every state of a run from the initial state, the slot list
    has exactly one slot per announced parameter (none before the first
    count), the set has started as soon as a count is known, and each
    known slot holds a [PARAM_VALUE] with the slot's own index and the
    current count, whose name has an entry in the keyed mapping. *)
Theorem params_invariant (es : list event) (t0 : Q) (sys comp : Z) :
  params_inv (state_of (run es (initial t0 sys comp))).
Proof.
  apply (run_invariant params_inv); [apply params_inv_step|].
  apply params_inv_initial.
Qed.

Lemma has_unknown_false (l : list (option message)) :
  has_unknown l = false <-> forall j, l !! j <> Some None.
Proof.
  induction l as [|v l IH]; simpl.
  - split; [intros _ j; by rewrite lookup_nil|done].
  - rewrite orb_false_iff, IH. split.
    + intros [Hv Hl] [|j]; simpl; [by destruct v|apply Hl].
    + intros Hall. split.
      * specialize (Hall 0). simpl in Hall. by destruct v.
      * intros j. apply (Hall (S j)).
Qed.

(** One step under which the count stays [n] keeps the known slots. *)
Lemma known_step n j e s :
  params_shape s ->
  mav_param_count (params s) = Z.of_nat n ->
  (forall c, announced e = Some c -> c = n) ->
  mav_param_count (params (state_of (step e s))) = Z.of_nat n
  /\ (known j s -> known j (state_of (step e s))).
Proof.
  intros Hs Hc He.
  assert (Hsame : param_view (state_of (step e s)) = param_view s ->
                  mav_param_count (params (state_of (step e s))) = Z.of_nat n
                  /\ (known j s -> known j (state_of (step e s)))).
  { intros (Hp & _)%param_view_eq. unfold known. by rewrite Hp. }
  destruct e as [t t'|t m| | |].
  - destruct (watchdog_keeps t t' s) as (Hc' & Hset & _).
    unfold known. simpl. by rewrite Hc', Hset.
  - destruct m; try (apply Hsame; apply handle_param_view).
    specialize (He param_count eq_refl). subst param_count.
    destruct (param_value_step t param_id param_value param_index n s Hs)
      as (s' & Hstep & Hc' & _ & _ & Hset' & _).
    rewrite Hstep. cbn [state_of]. split; [done|].
    unfold known. rewrite Hset'.
    rewrite (decide_False (P := mav_param_count (params s) ≠ Z.of_nat n))
      by (by intros []).
    intros [m Hm]. destruct (param_index <? n); [|by exists m].
    destruct (decide (param_index = j)) as [->|Hne].
    + rewrite list_lookup_insert_eq by (by eapply lookup_lt_Some). by eexists.
    + rewrite list_lookup_insert_ne by done. by exists m.
  - by apply Hsame.
  - apply Hsame. apply (user_param_view Upload_begin s I).
  - apply Hsame. apply (user_param_view Upload_end s I).
Qed.

Lemma known_run n j es :
  forall s,
    params_shape s ->
    mav_param_count (params s) = Z.of_nat n ->
    (forall e c, e ∈ processed es s -> announced e = Some c -> c = n) ->
    mav_param_count (params (state_of (run es s))) = Z.of_nat n
    /\ (known j s -> known j (state_of (run es s))).
Proof.
  induction es as [|e es IH]; intros s Hs Hc Hall; [done|].
  rewrite state_of_run_cons. cbn [processed] in Hall.
  destruct (known_step n j e s Hs Hc) as [Hc1 Hk1].
  { intros c. apply Hall. by left. }
  pose proof (params_shape_step e s Hs) as Hs1.
  destruct (step e s) as [s1|x s1]; cbn [state_of] in *; [|done].
  destruct (IH s1 Hs1 Hc1) as [Hc' Hk'].
  { intros e' c He'. apply Hall. by right. }
  split; [done|]. intros Hk. by apply Hk', Hk1.
Qed.

(** A [PARAM_VALUE] that is processed leaves its count, and its slot
    known if its index is below the count, for as long as no other count
    is announced. *)
Lemma received_known n i e es :
  forall s,
    params_shape s ->
    (forall e c, e ∈ processed es s -> announced e = Some c -> c = n) ->
    e ∈ processed es s ->
    is_param_of n e i ->
    mav_param_count (params (state_of (run es s))) = Z.of_nat n
    /\ (i < n -> known i (state_of (run es s))).
Proof.
  induction es as [|e0 es IH]; intros s Hs Hall He Hp.
  - by apply elem_of_nil in He.
  - rewrite state_of_run_cons. cbn [processed] in He, Hall.
    pose proof (params_shape_step e0 s Hs) as Hs1.
    apply elem_of_cons in He as [->|He].
    + destruct Hp as (t & id & v & ->).
      destruct (param_value_step t id v i n s Hs)
        as (s1 & Hstep & Hc1 & _ & _ & Hset1 & _).
      rewrite Hstep in *. cbn [state_of] in *.
      destruct (known_run n i es s1 Hs1 Hc1) as [Hc' Hk'].
      { intros e' c He'. apply Hall. by right. }
      split; [done|]. intros Hi. apply Hk'. unfold known.
      rewrite Hset1, (proj2 (Nat.ltb_lt _ _) Hi).
      rewrite list_lookup_insert_eq; [by eexists|].
      destruct (decide _) as [|Heq]; [by rewrite length_replicate|].
      apply dec_stable in Heq. unfold params_shape in Hs.
      by rewrite Hs, Heq, Nat2Z.id.
    + destruct (step e0 s) as [s1|x s1]; cbn [state_of] in *;
        [|by apply elem_of_nil in He].
      apply IH; try done. intros e' c He'. apply Hall. by right.
Qed.

(** X12.  Let the [PARAM_VALUE] messages that the thread processes in a
    run all announce the same count [n], and let every index below [n]
    be among them, in any order and with any repetition; whatever else
    happens in the run (iterations of the loop with their re-requests,
    other messages, calls from user threads, the end of the thread after
    the last of these values).  Then the set has started, it has [n]
    slots none of which is unknown, and the next watchdog step sets
    [loaded] and sends no request. *)
Theorem params_complete (n : nat) (es : list event) (s : Link) :
  params_inv s ->
  (forall e c, e ∈ processed es s -> announced e = Some c -> c = n) ->
  (exists e i, e ∈ processed es s /\ is_param_of n e i) ->
  (forall j, j < n -> exists e, e ∈ processed es s /\ is_param_of n e j) ->
  start (params (state_of (run es s))) = true
  /\ length (mav_param_set (params (state_of (run es s)))) = n
  /\ has_unknown (mav_param_set (params (state_of (run es s)))) = false
  /\ forall t t',
       loaded (params (watchdog t t' (state_of (run es s)))) = true
       /\ sent (watchdog t t' (state_of (run es s)))
          = sent (state_of (run es s)).
Proof.
  intros Hinv Hall (e0 & i0 & He0 & Hp0) Hcover.
  pose proof (run_invariant params_inv params_inv_step es s Hinv)
    as (Hs' & Hc' & _).
  destruct Hinv as (Hs & _ & _).
  destruct (received_known n i0 e0 es s Hs Hall He0 Hp0) as [Hn _].
  set (s' := state_of (run es s)) in *.
  assert (Hstart : start (params s') = true).
  { destruct Hc' as [Hc'|[_ Hc']]; [lia|done]. }
  assert (Hlen : length (mav_param_set (params s')) = n).
  { unfold params_shape in Hs'. by rewrite Hs', Hn, Nat2Z.id. }
  assert (Hknown : has_unknown (mav_param_set (params s')) = false).
  { apply has_unknown_false. intros j Hj.
    assert (Hjn : j < n) by (apply lookup_lt_Some in Hj; lia).
    destruct (Hcover j Hjn) as (e & He & Hp).
    destruct (received_known n j e es s Hs Hall He Hp) as [_ Hk].
    destruct (Hk Hjn) as [m Hm]. fold s' in Hm. congruence. }
  split_and!; try done.
  intros t0 t1. unfold watchdog. rewrite Hstart, Hknown. simpl. done.
Qed.

Lemma params_complete_witness :
  has_unknown
    (mav_param_set
       (params
          (state_of
             (run [Recv 0 (PARAM_VALUE "C" 3 2 3); Tick 0 0;
                   Recv 0 (PARAM_VALUE "A" 1 0 3); Tick 2 2;
                   Recv 2 (HEARTBEAT 0 0 0); Recv 3 (PARAM_VALUE "B" 2 1 3);
                   Fetch; Recv 3 (PARAM_VALUE "A" 1 0 3)]
                (initial 0 1 1))))) = false
  /\ loaded
       (params
          (watchdog 5 5
             (state_of
                (run [Recv 0 (PARAM_VALUE "C" 3 2 3); Tick 0 0;
                      Recv 0 (PARAM_VALUE "A" 1 0 3); Tick 2 2;
                      Recv 2 (HEARTBEAT 0 0 0);
                      Recv 3 (PARAM_VALUE "B" 2 1 3);
                      Fetch; Recv 3 (PARAM_VALUE "A" 1 0 3)]
                   (initial 0 1 1))))) = true.
Proof.
  set (es := [Recv 0 (PARAM_VALUE "C" 3 2 3); Tick 0 0;
              Recv 0 (PARAM_VALUE "A" 1 0 3); Tick 2 2;
              Recv 2 (HEARTBEAT 0 0 0); Recv 3 (PARAM_VALUE "B" 2 1 3);
              Fetch; Recv 3 (PARAM_VALUE "A" 1 0 3)]).
  assert (Hret : exists s', run es (initial 0 1 1) = Returned s').
  { assert (Hr : returned (run es (initial 0 1 1)) = true)
      by (by vm_compute).
    destruct (run es (initial 0 1 1)) as [s'|]; [by exists s'|done]. }
  destruct Hret as [s' Hrun].
  pose proof (processed_returned es (initial 0 1 1) s' Hrun) as Hproc.
  destruct (params_complete 3 es (initial 0 1 1))
    as (_ & _ & Hunk & Hw).
  - apply params_inv_initial.
  - rewrite Hproc. intros e c He.
    repeat (apply elem_of_cons in He as [->|He];
            [simpl; congruence|]).
    by apply elem_of_nil in He.
  - exists (Recv 0 (PARAM_VALUE "C" 3 2 3)), 2. rewrite Hproc.
    split; [by left|by exists 0%Q, "C", 3%float].
  - rewrite Hproc. intros [|[|[|j]]] Hj; [| | |lia].
    + exists (Recv 0 (PARAM_VALUE "A" 1 0 3)).
      split; [do 2 right; by left|by exists 0%Q, "A", 1%float].
    + exists (Recv 3 (PARAM_VALUE "B" 2 1 3)).
      split; [do 5 right; by left|by exists 3%Q, "B", 2%float].
    + exists (Recv 0 (PARAM_VALUE "C" 3 2 3)).
      split; [by left|by exists 0%Q, "C", 3%float].
  - split; [exact Hunk|]. apply (Hw 5%Q 5%Q).
Defined.

Lemma watchdog_loaded t t' s :
  loaded (params s) = true -> watchdog t t' s = s.
Proof.
  intros Hl. unfold watchdog.
  destruct s as [[c l ld st] mp wl wld wu lw ts tc mts mtc lnp d lhr sn].
  simpl in *. subst ld. destruct st; [|done].
  by destruct (has_unknown l).
Qed.

(** X13.  Once [loaded] is set the watchdog does nothing at all, and
    [loaded] is cleared again only by a [PARAM_VALUE] whose [param_count]
    differs from the stored one. *)
Theorem loaded_until_new_count :
  (forall (t t' : Q) (s : Link),
      loaded (params s) = true -> watchdog t t' s = s)
  /\ (forall (e : event) (s : Link),
      loaded (params s) = true ->
      loaded (params (state_of (step e s))) = false ->
      exists t id v i c,
        e = Recv t (PARAM_VALUE id v i c)
        /\ mav_param_count (params s) <> Z.of_nat c).
Proof.
  split; [apply watchdog_loaded|].
  intros e s Hl Hl'. destruct e as [t t'|t m| | |].
  - simpl in Hl'. rewrite watchdog_loaded in Hl' by done. congruence.
  - pose proof (handle_param_view t m s) as Hv.
    apply param_view_eq in Hv as (Hp & _). simpl in Hl'. rewrite Hp in Hl'.
    destruct m; simpl in Hl'; try congruence.
    destruct (decide (mav_param_count (params s) ≠ Z.of_nat param_count))
      as [Hne|Heq].
    + by exists t, param_id, param_value, param_index, param_count.
    + exfalso. destruct (param_index <? param_count); simpl in Hl';
        [|congruence].
      destruct (mav_param_set (params s) !! param_index) as [[?|]|];
        simpl in Hl'; congruence.
  - simpl in Hl'. congruence.
  - pose proof (user_param_view Upload_begin s I) as Hv.
    apply param_view_eq in Hv as (Hp & _). rewrite Hp in Hl'. congruence.
  - pose proof (user_param_view Upload_end s I) as Hv.
    apply param_view_eq in Hv as (Hp & _). rewrite Hp in Hl'. congruence.
Qed.

Lemma loaded_until_new_count_witness :
  watchdog 9 9 (watchdog 5 5 (state_of (run three_values (initial 0 1 1))))
  = watchdog 5 5 (state_of (run three_values (initial 0 1 1)))
  /\ exists t id v i c,
       Recv 6 (PARAM_VALUE "RTL_ALT" 1500 0 3)
       = Recv t (PARAM_VALUE id v i c)
       /\ mav_param_count
            (params
               (watchdog 5 5 (state_of (run three_values (initial 0 1 1)))))
          <> Z.of_nat c.
Proof.
  destruct loaded_until_new_count as [Hidle Hclear].
  split.
  - apply Hidle. reflexivity.
  - apply Hclear; reflexivity.
Defined.

(** *** What a firing of the watchdog sends *)

Lemma unknown_indices_spec l i j :
  j ∈ unknown_indices i l <-> i <= j /\ l !! (j - i) = Some None.
Proof.
  revert i. induction l as [|v l IH]; intros i; simpl.
  - rewrite elem_of_nil. split; [done|]. by intros [_ ?].
  - assert (Hrest : j ∈ unknown_indices (S i) l
                    <-> i < j /\ (v :: l) !! (j - i) = Some None).
    { rewrite IH. split.
      - intros [Hj Hl]. split; [lia|].
        replace (j - i) with (S (j - S i)) by lia. done.
      - intros [Hj Hl]. split; [lia|].
        replace (j - i) with (S (j - S i)) in Hl by lia. done. }
    destruct v as [m|]; simpl.
    + rewrite Hrest. split; [intros [? ?]; split; [lia|done]|].
      intros [Hj Hl]. split; [|done].
      destruct (decide (i = j)) as [->|]; [|lia].
      by rewrite Nat.sub_diag in Hl.
    + rewrite elem_of_cons, Hrest. split.
      * intros [->|[? ?]]; [|split; [lia|done]].
        split; [lia|]. by rewrite Nat.sub_diag.
      * intros [Hj Hl]. destruct (decide (j = i)) as [->|]; [by left|].
        right. split; [lia|done].
Qed.

Lemma unknown_indices_sorted l i :
  StronglySorted lt (unknown_indices i l).
Proof.
  revert i. induction l as [|v l IH]; intros i; simpl; [constructor|].
  destruct (unknown v); [|apply IH].
  constructor; [apply IH|]. apply Forall_forall. intros j Hj.
  apply unknown_indices_spec in Hj. lia.
Qed.

Lemma rerequest_take sys comp i c l :
  c <= 50 ->
  rerequest sys comp i c l
  = param_request_read_send sys comp "" <$> take (51 - c) (unknown_indices i l).
Proof.
  revert i c. induction l as [|v l IH]; intros i c Hc; simpl.
  - by rewrite take_nil.
  - destruct (unknown v); [|by apply IH].
    replace (51 - c) with (S (50 - c)) by lia. simpl. f_equal.
    destruct (50 <? c + 1) eqn:H50.
    + apply Nat.ltb_lt in H50. by replace (50 - c) with 0 by lia.
    + apply Nat.ltb_ge in H50. rewrite IH by lia.
      by replace (51 - (c + 1)) with (50 - c) by lia.
Qed.

(** X14.  When the watchdog fires it asks again for the unknown slots
    only, lowest index first, each by index with an empty [param_id] and
    the target ids of [master], and for the first 51 of them at most; it
    then waits [repeat_duration] from the new clock reading.  When it
    does not fire it sends nothing. *)
Theorem watchdog_requests (t t' : Q) (s : Link) :
  (fires t s = true ->
   sent (watchdog t t' s)
   = sent s
     ++ (param_request_read_send (master_target_system s)
           (master_target_component s) ""
           <$> take 51 (unknown_indices 0 (mav_param_set (params s))))
   /\ duration (watchdog t t' s) = repeat_duration
   /\ last_new_param (watchdog t t' s) = t'
   /\ params (watchdog t t' s) = params s)
  /\ (fires t s = false -> sent (watchdog t t' s) = sent s)
  /\ (forall j,
      j ∈ unknown_indices 0 (mav_param_set (params s))
      <-> mav_param_set (params s) !! j = Some None)
  /\ StronglySorted lt (unknown_indices 0 (mav_param_set (params s))).
Proof.
  split_and!.
  - unfold fires, watchdog.
    destruct (start (params s)); [|done]. simpl.
    destruct (has_unknown (mav_param_set (params s))); [|done]. simpl.
    intros ->. simpl. by rewrite rerequest_take by lia.
  - unfold fires, watchdog.
    destruct (start (params s)); [|done]. simpl.
    destruct (has_unknown (mav_param_set (params s))); [|done]. simpl.
    by intros ->.
  - intros j. rewrite unknown_indices_spec, Nat.sub_0_r.
    split; [by intros [_ ?]|]. intros ?. split; [lia|done].
  - apply unknown_indices_sorted.
Qed.

Lemma watchdog_requests_witness :
  sent (watchdog 1 1 rerequested) = sent rerequested
  /\ sent (watchdog 3 3 rerequested)
     = sent rerequested ++ [param_request_read_send 1 1 "" 1].
Proof.
  destruct (watchdog_requests 1 1 rerequested) as (_ & Hidle & _).
  destruct (watchdog_requests 3 3 rerequested) as (Hfire & _).
  split.
  - apply Hidle. reflexivity.
  - destruct (Hfire eq_refl) as (Hsent & _). exact Hsent.
Defined.

(** ** Writing the outbound queue *)

(** X15.  The write loop accounts for every packet: the queue it found
    is the packets it took followed by the ones it left; each packet
    taken was either written or lost to a write that raised, never both
    and never twice, and the written ones went out in queue order.  Only
    a packet whose write raised is lost: one per reopened connection,
    plus the one that ended the loop when it did not end on an empty
    queue.  When no write raises, the whole queue is written. *)
Theorem drain_accounts (write : nat -> Close.packet -> Drain.write_result)
    (n : nat) (q : list Close.packet) :
  (exists taken,
      q = taken ++ Drain.left (Drain.drain write n q)
      /\ taken ≡ₚ Drain.written (Drain.drain write n q)
                  ++ Drain.lost (Drain.drain write n q)
      /\ Drain.written (Drain.drain write n q) `sublist_of` taken
      /\ length (Drain.lost (Drain.drain write n q))
         = Drain.reopens (Drain.drain write n q)
           + (match Drain.how (Drain.drain write n q) with
              | Drain.queue_empty => 0
              | _ => 1
              end)
      /\ (Drain.how (Drain.drain write n q) = Drain.queue_empty ->
          Drain.left (Drain.drain write n q) = []))
  /\ ((forall k p, write k p = Drain.wrote) ->
      Drain.drain write n q = Drain.mkDrained q [] [] 0 Drain.queue_empty).
Proof.
  split.
  - revert n. induction q as [|msg q IH]; intros n.
    + exists []. by split_and!.
    + simpl. destruct (IH (S n)) as (taken & Hq & Hperm & Hsub & Hlost & He).
      destruct (write n msg) as [|[|]| |]; simpl.
      * exists (msg :: taken). split_and!; try done.
        -- simpl. by f_equal.
        -- simpl. by f_equiv.
        -- by apply sublist_skip.
      * exists (msg :: taken). split_and!; try done.
        -- simpl. by f_equal.
        -- rewrite <- Permutation_middle. by f_equiv.
        -- by apply sublist_cons.
        -- simpl. by rewrite Hlost.
      * exists [msg]. split_and!; try done. apply sublist_nil_l.
      * exists [msg]. split_and!; try done. apply sublist_nil_l.
      * exists [msg]. split_and!; try done. apply sublist_nil_l.
  - intros Hok. revert n. induction q as [|msg q IH]; intros n; [done|].
    simpl. by rewrite Hok, IH.
Qed.

(** ** [param_set] *)

Lemma upper_ascii_idem a :
  ParamSet.upper_ascii (ParamSet.upper_ascii a) = ParamSet.upper_ascii a.
Proof. by destruct a as [[] [] [] [] [] [] [] []]. Qed.

Lemma upper_idem s : ParamSet.upper (ParamSet.upper s) = ParamSet.upper s.
Proof.
  induction s as [|a s IH]; simpl; [done|]. by rewrite upper_ascii_idem, IH.
Qed.

Lemma poll_spec name value tstart env b rest :
  ParamSet.poll name value tstart env = Some (b, rest) ->
  rest `suffix_of` env
  /\ (b = true ->
      exists t m v, (t, m) ∈ env /\ m !! name = Some v
                    /\ PrimFloat.eqb v value = true).
Proof.
  revert b rest. induction env as [|[t m] env IH]; intros b rest; simpl;
    [done|].
  assert (Hrec : ParamSet.poll name value tstart env = Some (b, rest) ->
                 rest `suffix_of` (t, m) :: env
                 /\ (b = true ->
                     exists t' m' v, (t', m') ∈ (t, m) :: env
                                     /\ m' !! name = Some v
                                     /\ PrimFloat.eqb v value = true)).
  { intros Hp. destruct (IH b rest Hp) as [Hs Hb].
    split; [by apply suffix_cons_r|].
    intros Hbt. destruct (Hb Hbt) as (t' & m' & v & Hin & Hv).
    exists t', m', v. split; [by right|done]. }
  destruct (negb (Qle_bool 1 (t - tstart))).
  - destruct (m !! name) as [v|] eqn:Hv; [|exact Hrec].
    destruct (PrimFloat.eqb v value) eqn:Heq; [|exact Hrec].
    intros [= <- <-]. split; [by apply suffix_cons_r|].
    intros _. exists t, m, v. split; [by left|done].
  - intros [= <- <-]. split; [by apply suffix_cons_r|done].
Qed.

Lemma rounds_spec name value remaining env sent b out :
  ParamSet.rounds name value remaining env sent = Some (b, out) ->
  exists k,
    out = sent ++ replicate k (ParamSet.upper name, value)
    /\ (if b then 1 <= k <= remaining else k = remaining + 1)
    /\ (b = true ->
        exists t m v, (t, m) ∈ env /\ m !! name = Some v
                      /\ PrimFloat.eqb v value = true).
Proof.
  revert env sent. induction remaining as [|r IH]; intros env sent.
  - destruct env as [|[t0 m0] env]; simpl; [done|].
    intros [= <- <-]. exists 1. split; [done|]. split; [lia|done].
  - destruct env as [|[t0 m0] env]; simpl; [done|].
    destruct (ParamSet.poll name value t0 env) as [[[|] env2]|] eqn:Hp;
      [| |done].
    + intros [= <- <-]. exists 1. split; [done|]. split; [lia|].
      intros _. destruct (poll_spec _ _ _ _ _ _ Hp) as [_ Hb].
      destruct (Hb eq_refl) as (t & m & v & Hin & Hv).
      exists t, m, v. split; [by right|done].
    + intros Hr. destruct (IH _ _ Hr) as (k & -> & Hk & Hb).
      exists (S k). split; [|split].
      * by rewrite <- app_assoc.
      * destruct b; lia.
      * intros Hbt. destruct (Hb Hbt) as (t & m & v & Hin & Hv).
        exists t, m, v. split; [|done]. right.
        destruct (poll_spec _ _ _ _ _ _ Hp) as [[pre ->] _].
        apply elem_of_app. by right.
Qed.

(** X16.  When [param_set] returns, every [PARAM_SET] it sent carries
    the upper-cased name and the value.  It answers [True] only if the
    keyed mapping was seen to hold a value equal to the one asked for
    under the upper-cased name, after between 1 and [retries] sends, and
    prints nothing then.  It answers [False] after exactly [retries + 1]
    sends (the last one is not waited for) and prints the timeout line
    only if [retries > 0]; with [retries = 0] it always answers
    [False]. *)
Theorem param_set_sends (name : string) (value : float) (retries : nat)
    (env : list ParamSet.observation) (b : bool)
    (sent : list (string * float)) (printed : bool) :
  ParamSet.param_set name value retries env = Some (b, sent, printed) ->
  exists k,
    sent = replicate k (ParamSet.upper name, value)
    /\ (if b then 1 <= k <= retries else k = retries + 1)
    /\ printed = negb b && (0 <? retries)
    /\ (b = true ->
        exists t m v, (t, m) ∈ env /\ m !! ParamSet.upper name = Some v
                      /\ PrimFloat.eqb v value = true).
Proof.
  unfold ParamSet.param_set.
  destruct (ParamSet.rounds (ParamSet.upper name) value retries env [])
    as [[[|] out]|] eqn:Hr; [| |done].
  - intros [= <- <- <-].
    destruct (rounds_spec _ _ _ _ _ _ _ Hr) as (k & -> & Hk & Hb).
    exists k. rewrite upper_idem. split; [done|]. split; [done|].
    split; [done|exact Hb].
  - intros [= <- <- <-].
    destruct (rounds_spec _ _ _ _ _ _ _ Hr) as (k & -> & Hk & Hb).
    exists k. rewrite upper_idem. split; [done|]. split; [done|].
    split; [done|exact Hb].
Qed.

Lemma param_set_sends_witness :
  ParamSet.param_set "rtl_alt" 1500 3 echoed
  = Some (true, [("RTL_ALT", 1500%float)], false)
  /\ exists k,
       [("RTL_ALT", 1500%float)]
       = replicate k (ParamSet.upper "rtl_alt", 1500%float)
       /\ 1 <= k <= 3.
Proof.
  assert (Hrun : ParamSet.param_set "rtl_alt" 1500 3 echoed
                 = Some (true, [("RTL_ALT", 1500%float)], false))
    by (by vm_compute).
  split; [exact Hrun|].
  destruct (param_set_sends "rtl_alt" 1500 3 echoed true
              [("RTL_ALT", 1500%float)] false Hrun) as (k & Hk & Hb & _).
  by exists k.
Defined.

Lemma drain_accounts_witness :
  Drain.written (Drain.drain flaky 0 five_packets)
  = [[x01%byte]; [x03%byte]]
  /\ Drain.left (Drain.drain flaky 0 five_packets) = [[x05%byte]]
  /\ exists taken,
       five_packets = taken ++ Drain.left (Drain.drain flaky 0 five_packets)
       /\ taken ≡ₚ Drain.written (Drain.drain flaky 0 five_packets)
                   ++ Drain.lost (Drain.drain flaky 0 five_packets).
Proof.
  destruct (drain_accounts flaky 0 five_packets)
    as [(taken & Hq & Hperm & _) _].
  split; [reflexivity|]. split; [reflexivity|].
  exists taken. by split.
Defined.

(** ** The [HEARTBEAT] listener *)

Lemma inverted_other (items : list (string * Z)) (d : gmap Z string) n :
  n ∉ items.*2 ->
  foldl (fun d kv => <[kv.2 := kv.1]> d) d items !! n = d !! n.
Proof.
  revert d. induction items as [|[k v] items IH]; intros d Hn; simpl;
    [done|].
  simpl in Hn. apply not_elem_of_cons in Hn as [Hne Hn].
  rewrite IH by done. by rewrite lookup_insert_ne.
Qed.

Lemma inverted_last pre post name n :
  n ∉ post.*2 ->
  Heartbeat.inverted (pre ++ (name, n) :: post) !! n = Some name.
Proof.
  intros Hn. unfold Heartbeat.inverted. rewrite foldl_app. simpl.
  rewrite inverted_other by done. by rewrite lookup_insert_eq.
Qed.

Lemma land_pow2 b k :
  (0 <= k)%Z -> negb (Z.land b (2 ^ k) =? 0)%Z = Z.testbit b k.
Proof.
  intros Hk. destruct (Z.testbit b k) eqn:Hb.
  - apply negb_true_iff, Z.eqb_neq. intros H0.
    assert (Hbit : Z.testbit (Z.land b (2 ^ k)) k = true).
    { rewrite Z.land_spec, Hb, Z.pow2_bits_true by done. done. }
    rewrite H0, Z.bits_0 in Hbit. done.
  - apply negb_false_iff, Z.eqb_eq. apply Z.bits_inj'. intros i Hi.
    rewrite Z.land_spec, Z.bits_0.
    destruct (decide (i = k)) as [->|Hne].
    + by rewrite Hb.
    + rewrite Z.pow2_bits_false by done. apply andb_false_r.
Qed.

(** X17.  A [HEARTBEAT] whose [custom_mode] is a number of the mode table
    sets [flightmode] to the name listed last for that number, [armed] to
    the arm bit of [base_mode] and [system_status] to the field, and
    notifies [mode] then [armed]. *)
Theorem heartbeat_sets_mode (k : Z) (pre post : list (string * Z))
    (name : string) (base_mode custom_mode status : Z)
    (a : Heartbeat.mode_attrs) :
  (0 <= k)%Z ->
  custom_mode ∉ post.*2 ->
  Heartbeat.heartbeat_listener (2 ^ k) (pre ++ (name, custom_mode) :: post)
    base_mode custom_mode status a
  = Returned
      (Heartbeat.mkMode (Z.testbit base_mode k) name (Some status)
         (Heartbeat.notified a ++ ["mode"; "armed"])).
Proof.
  intros Hk Hn. unfold Heartbeat.heartbeat_listener.
  rewrite inverted_last by done. simpl. by rewrite land_pow2.
Qed.

Lemma heartbeat_sets_mode_witness :
  Heartbeat.heartbeat_listener 128 copter_modes 209 4 4
    (Heartbeat.mkMode false "AUTO" None [])
  = Returned (Heartbeat.mkMode true "GUIDED_OLD" (Some 4%Z)
                ["mode"; "armed"]).
Proof.
  apply (heartbeat_sets_mode 7
           [("STABILIZE", 0%Z); ("GUIDED", 4%Z); ("AUTO", 3%Z)] []
           "GUIDED_OLD" 209 4 4 (Heartbeat.mkMode false "AUTO" None [])).
  - lia.
  - apply not_elem_of_nil.
Defined.

(** X18.  A [HEARTBEAT] whose [custom_mode] is no number of the mode
    table makes the listener raise [KeyError]: [armed] has been
    overwritten by then, while [flightmode] and [system_status] keep
    their old values and nothing is notified. *)
Theorem heartbeat_unknown_mode (safety_armed : Z)
    (items : list (string * Z)) (base_mode custom_mode status : Z)
    (a : Heartbeat.mode_attrs) :
  custom_mode ∉ items.*2 ->
  Heartbeat.heartbeat_listener safety_armed items base_mode custom_mode
    status a
  = Raised (Exception "KeyError")
      (Heartbeat.mkMode (negb (Z.land base_mode safety_armed =? 0)%Z)
         (Heartbeat.flightmode a) (Heartbeat.system_status a)
         (Heartbeat.notified a)).
Proof.
  intros Hn. unfold Heartbeat.heartbeat_listener, Heartbeat.inverted.
  by rewrite inverted_other, lookup_empty.
Qed.

Lemma heartbeat_unknown_mode_witness :
  Heartbeat.heartbeat_listener 128 copter_modes 209 17 4
    (Heartbeat.mkMode false "AUTO" None [])
  = Raised (Exception "KeyError") (Heartbeat.mkMode true "AUTO" None []).
Proof.
  apply (heartbeat_unknown_mode 128 copter_modes 209 17 4
           (Heartbeat.mkMode false "AUTO" None [])).
  apply (bool_decide_unpack _). by vm_compute.
Defined.

(** ** The [RC_CHANNELS_RAW] listener *)

Lemma rc_key_ne (a b : nat) : a <> b -> pretty a <> pretty b.
Proof. intros Hne Heq. by apply Hne, (inj pretty). Qed.

Ltac rc_lookup :=
  unfold RC.rc_channels_raw_listener, RC.set;
  repeat (rewrite lookup_insert_ne by (apply rc_key_ne; lia));
  rewrite ?lookup_insert_eq.

(** X19.  After an [RC_CHANNELS_RAW] message the read-back holds, under
    the decimal string of [port * 8 + k], the raw value of channel [k],
    for each [k] from 1 to 8; every other entry is as it was, so the
    channels of another port are never overwritten. *)
Theorem rc_readback_channels (m : RC.rc_channels_raw)
    (rc_readback : gmap string nat) :
  (forall k, 1 <= k <= 8 ->
     RC.rc_channels_raw_listener m rc_readback
       !! pretty (RC.port m * 8 + k)
     = Some (RC.chan_raw m k))
  /\ (forall key,
      (forall k, 1 <= k <= 8 -> key <> pretty (RC.port m * 8 + k)) ->
      RC.rc_channels_raw_listener m rc_readback !! key = rc_readback !! key)
  /\ (forall p k,
      p <> RC.port m -> 1 <= k <= 8 ->
      RC.rc_channels_raw_listener m rc_readback !! pretty (p * 8 + k)
      = rc_readback !! pretty (p * 8 + k)).
Proof.
  assert (Hother : forall key,
             (forall k, 1 <= k <= 8 -> key <> pretty (RC.port m * 8 + k)) ->
             RC.rc_channels_raw_listener m rc_readback !! key
             = rc_readback !! key).
  { intros key Hkey. unfold RC.rc_channels_raw_listener, RC.set.
    rewrite !lookup_insert_ne; [done|..];
      apply not_eq_sym, Hkey; lia. }
  split_and!.
  - intros k Hk.
    assert (Hcases : k = 1 \/ k = 2 \/ k = 3 \/ k = 4 \/ k = 5 \/ k = 6
                     \/ k = 7 \/ k = 8) by lia.
    destruct Hcases as [->|[->|[->|[->|[->|[->|[->| ->]]]]]]];
      by rc_lookup.
  - exact Hother.
  - intros p k Hp Hk. apply Hother. intros k' Hk'.
    apply rc_key_ne. nia.
Qed.

Lemma rc_readback_channels_witness :
  RC.rc_channels_raw_listener port1 (RC.rc_channels_raw_listener port0 ∅)
    !! pretty (RC.port port0 * 8 + 8)
  = Some (RC.chan_raw port0 8).
Proof.
  destruct (rc_readback_channels port1
              (RC.rc_channels_raw_listener port0 ∅)) as (_ & _ & Hport).
  destruct (rc_readback_channels port0 ∅) as (Hchan & _).
  assert (Hne : RC.port port0 <> RC.port port1) by discriminate.
  assert (Hk : 1 <= 8 <= 8) by lia.
  exact (eq_trans (Hport (RC.port port0) 8 Hne Hk) (Hchan 8 Hk)).
Defined.

(** ** The receive loop *)

Section ReceiveFacts.
Import Receive.

Lemma rebind_id s : rebind (master_ids s) s = s.
Proof. by destruct s. Qed.

Lemma param_value_rx_rebind ids t m s :
  param_value_rx t m (rebind ids s) = rebind ids (param_value_rx t m s).
Proof.
  destruct m; try done. simpl.
  destruct (decide _); destruct (_ <? _); simpl; try done;
    destruct (_ !! _) as [[?|]|]; done.
Qed.

Lemma waypoint_rx_rebind ids m s :
  waypoint_rx m (rebind ids s) = outcome_map (rebind ids) (waypoint_rx m s).
Proof.
  unfold waypoint_rx. simpl. destruct (wp_loaded s); [done|].
  destruct m; simpl; try done.
  all: unfold count; simpl; repeat case_match; done.
Qed.

Lemma waypoint_request_rx_rebind ids m s :
  waypoint_request_rx m (rebind ids s)
  = outcome_map (rebind ids) (waypoint_request_rx m s).
Proof.
  unfold waypoint_request_rx, wp. simpl.
  destruct (wp_uploaded s); [|by destruct m].
  destruct m; simpl; try done.
  all: repeat case_match; done.
Qed.

(** The dispatch of a message reads nothing of [master]. *)
Lemma handle_rebind ids t m s :
  handle t m (rebind ids s) = outcome_map (rebind ids) (handle t m s).
Proof.
  unfold handle. rewrite param_value_rx_rebind, waypoint_rx_rebind.
  destruct (waypoint_rx m (param_value_rx t m s)) as [s1|x s1]; simpl;
    [|done].
  assert (H3 : waypoint_current_rx m (rebind ids s1)
               = rebind ids (waypoint_current_rx m s1)) by (by destruct m).
  rewrite H3, waypoint_request_rx_rebind.
  destruct (waypoint_request_rx m (waypoint_current_rx m s1)) as [s2|x s2];
    simpl; [|done].
  by destruct m.
Qed.

Lemma master_ids_handle t m s :
  master_ids (state_of (handle t m s)) = master_ids s.
Proof.
  unfold handle.
  assert (H1 : master_ids (param_value_rx t m s) = master_ids s).
  { destruct m; try done. simpl.
    destruct (decide _); destruct (_ <? _); simpl; try done;
      destruct (_ !! _) as [[?|]|]; done. }
  set (s1 := param_value_rx t m s) in *. clearbody s1. rewrite <- H1.
  assert (H2 : master_ids (state_of (waypoint_rx m s1)) = master_ids s1).
  { unfold waypoint_rx. destruct (wp_loaded s1); [done|].
    destruct m; simpl; try done.
    all: repeat case_match; done. }
  destruct (waypoint_rx m s1) as [s2|x s2]; simpl in *; [|done].
  rewrite <- H2.
  assert (H3 : master_ids (waypoint_current_rx m s2) = master_ids s2)
    by (by destruct m).
  set (s3 := waypoint_current_rx m s2) in *. clearbody s3. rewrite <- H3.
  unfold waypoint_request_rx, wp.
  repeat case_match; simpl; try done; by destruct m.
Qed.

Context {W : Type} (code : behaviour W).

Lemma recv_one_rebind ids t m (k : Thread.Worker W) :
  Thread.recv_one code t m (rebind_worker ids k)
  = outcome_map (rebind_worker ids) (Thread.recv_one code t m k).
Proof.
  unfold Thread.recv_one. simpl. rewrite handle_rebind.
  destruct (handle t m (Thread.link k)) as [l'|x l']; simpl; [|done].
  by destruct (Listeners.mavlink_packet code _ _ m _).
Qed.

Lemma loop_rebind ids rs (k : Thread.Worker W) :
  Thread.loop code (arrived rs) (rebind_worker ids k)
  = outcome_map (rebind_worker ids) (Thread.loop code (arrived rs) k).
Proof.
  revert k. induction rs as [|r rs IH]; intros k; [done|].
  destruct r as [t m| |[ids'|]| |]; simpl; try done.
  rewrite recv_one_rebind.
  destruct (Thread.recv_one code t m k) as [k'|x k']; simpl; [apply IH|done].
Qed.

Lemma master_ids_recv_one t m (k : Thread.Worker W) :
  master_ids (Thread.link (state_of (Thread.recv_one code t m k)))
  = master_ids (Thread.link k).
Proof.
  unfold Thread.recv_one. pose proof (master_ids_handle t m (Thread.link k)).
  destruct (handle t m (Thread.link k)) as [l'|x l']; simpl in *; [|done].
  by destruct (Listeners.mavlink_packet code _ _ m _).
Qed.

End ReceiveFacts.


